(** * Tank-geometry reference evaluator (CadQuery validation notebook)

    The notebook builds a solid with the CadQuery kernel (a sphere, or a
    cylinder united with two spheres), removes what lies above the liquid
    level with a long coaxial cylinder, and reads volume, centre of mass
    and matrix of inertia off the remaining solid.

    Every solid the notebook builds is a solid of revolution about the z
    axis whose horizontal cross-sections are discs.  The kernel is
    therefore modelled on such solids: a solid is a list of slabs, each
    slab a z-range with the squared radius of its disc given by a
    polynomial in z.  Python floats are read as real numbers. *)

From Stdlib Require Import Reals Lra Lia List String Bool Arith.
Import ListNotations.
Open Scope R_scope.

(** ** Polynomials in the axial coordinate *)

Module Poly.

(** Coefficients, lowest degree first. *)
Definition poly := list R.

Fixpoint peval (p : poly) (z : R) : R :=
  match p with
  | [] => 0
  | a :: q => a + z * peval q z
  end.

Fixpoint padd (p q : poly) : poly :=
  match p, q with
  | [], _ => q
  | _, [] => p
  | a :: p', b :: q' => (a + b) :: padd p' q'
  end.

Definition pscale (k : R) (p : poly) : poly := map (Rmult k) p.

Fixpoint pmul (p q : poly) : poly :=
  match p with
  | [] => []
  | a :: p' => padd (pscale a q) (0 :: pmul p' q)
  end.

(** [pshift d p] is the polynomial z |-> p (z - d). *)
Fixpoint pshift (d : R) (p : poly) : poly :=
  match p with
  | [] => []
  | a :: q => padd [a] (pmul [- d; 1] (pshift d q))
  end.

(** Term-by-term primitive: the coefficient of degree n moves to degree
    n + 1 and is divided by n + 1. *)
Fixpoint pprim_from (n : nat) (p : poly) : poly :=
  match p with
  | [] => []
  | a :: q => a / INR (S n) :: pprim_from (S n) q
  end.

Definition pprim (p : poly) : poly := 0 :: pprim_from 0 p.

(** Integral of [p] from [a] to [b]. *)
Definition integral (p : poly) (a b : R) : R :=
  peval (pprim p) b - peval (pprim p) a.

End Poly.

(** ** The CAD kernel on coaxial solids of revolution

    The notebook calls the kernel through [sphere], [cylinder],
    [translate], [union], [cut], [Volume], [centerOfMass] and
    [matrixOfInertia].  They are modelled by what they mean for solids of
    revolution about the z axis with disc cross-sections.

    The model is exact over the reals.  The kernel rounds, works to a
    tolerance (the cut that leaves a sliver thinner than the tolerance
    comes back as an empty solid) and raises on a degenerate primitive (a
    cylinder of height 0, a non-positive radius); none of this is in the
    model, so a statement that tells a thin sliver from the empty solid
    holds of the model only. *)

Module Cq.
Import Poly.

(** The points with [lo <= z <= hi] and x^2 + y^2 <= prof(z). *)
Record slab := mkSlab { lo : R; hi : R; prof : poly }.

(** A solid is the union of its slabs; the operations below keep the
    z-ranges of the slabs of one solid from overlapping. *)
Definition solid := list slab.

Definition radius2 (a : slab) (z : R) : R := peval (prof a) z.

(** [Workplane("XY").sphere(radius)]: the ball centred at the origin. *)
Definition sphere (radius : R) : solid :=
  [mkSlab (- radius) radius [radius * radius; 0; -1]].

(** [Workplane("XY").cylinder(height, radius)]: axis z, centred at the
    origin (CadQuery centres primitives by default). *)
Definition cylinder (height radius : R) : solid :=
  [mkSlab (- (height / 2)) (height / 2) [radius * radius]].

(** [.translate((0, 0, dz))]: every translation of the notebook is along
    the axis. *)
Definition translate (dz : R) (s : solid) : solid :=
  map (fun a => mkSlab (lo a + dz) (hi a + dz) (pshift dz (prof a))) s.

(** The part of slab [a] below height [x], and the part above [y]. *)
Definition below (a : slab) (x : R) : solid :=
  if Rlt_dec (lo a) (Rmin (hi a) x)
  then [mkSlab (lo a) (Rmin (hi a) x) (prof a)] else [].

Definition above (a : slab) (y : R) : solid :=
  if Rlt_dec (Rmax (lo a) y) (hi a)
  then [mkSlab (Rmax (lo a) y) (hi a) (prof a)] else [].

(** Slab [a] without the heights between [x] and [y]. *)
Definition clip_out (a : slab) (x y : R) : solid := below a x ++ above a y.

(** Common z-range of two slabs and its middle. *)
Definition common_lo (a b : slab) : R := Rmax (lo a) (lo b).
Definition common_hi (a b : slab) : R := Rmin (hi a) (hi b).
Definition common_mid (a b : slab) : R := (common_lo a b + common_hi a b) / 2.

(** On their common z-range the disc of [a] lies inside the disc of [b].
    The two discs are compared at the middle of the range: the profiles
    met here (a cylinder against a sphere of the same radius, two equal
    spheres on one side of the plane between their centres) do not cross
    inside a common range, and the solids built this way have at every
    height the disc they should ([ShapeFacts.section_at_capped_cylinder],
    [ShapeFacts.section_at_cut_drill]). *)
Definition inside (a b : slab) : bool :=
  if Rlt_dec (common_lo a b) (common_hi a b)
  then if Rle_dec (radius2 a (common_mid a b)) (radius2 b (common_mid a b))
       then true else false
  else false.

Definition strictly_inside (a b : slab) : bool :=
  if Rlt_dec (common_lo a b) (common_hi a b)
  then if Rlt_dec (radius2 a (common_mid a b)) (radius2 b (common_mid a b))
       then true else false
  else false.

(** What is left of slab [a] after every slab of [B] that hides it (in the
    sense of [hides]) has taken its z-range away. *)
Definition carve (hides : slab -> slab -> bool) (a : slab) (B : solid)
  : solid :=
  fold_left
    (fun pieces b =>
       flat_map (fun piece => if hides piece b
                              then clip_out piece (lo b) (hi b)
                              else [piece]) pieces)
    B [a].

(** [A.cut(B)]: where a disc of [A] lies inside the disc of [B] nothing is
    left of it. *)
Definition cut (A B : solid) : solid := flat_map (fun a => carve inside a B) A.

(** [A.union(B)]: at every height the larger disc; [A] keeps the heights
    where the two discs are equal. *)
Definition union (A B : solid) : solid :=
  flat_map (fun a => carve strictly_inside a B) A
  ++ flat_map (fun b => carve inside b A) B.

(** [.val()] hands over the solid of the workplane. *)
Definition val (s : solid) : solid := s.

Definition sum_slabs (f : slab -> R) (s : solid) : R :=
  fold_right (fun a acc => f a + acc) 0 s.

(** Integral over the solid of a density that depends on the height and on
    the squared radius of the disc: [g] is the density integrated over the
    disc, as a polynomial in z. *)
Definition slab_integral (g : poly -> poly) (a : slab) : R :=
  PI * integral (g (prof a)) (lo a) (hi a).

(** [Volume()]: the disc at height z has area pi * prof(z). *)
Definition Volume (s : solid) : R := sum_slabs (slab_integral (fun p => p)) s.

(** First moment in z. *)
Definition moment_z (s : solid) : R :=
  sum_slabs (slab_integral (fun p => pmul [0; 1] p)) s.

(** [centerOfMass(...).z].  A solid without volume reports the origin. *)
Definition centerOfMass_z (s : solid) : R :=
  if Req_dec_T (Volume s) 0 then 0 else moment_z s / Volume s.

(** Integral of y^2 + (z - c)^2: over the disc of squared radius p the
    term y^2 gives pi * p^2 / 4 and (z - c)^2 gives pi * p * (z - c)^2. *)
Definition inertia_density (c : R) (p : poly) : poly :=
  padd (pscale (1 / 4) (pmul p p)) (pmul p (pmul [- c; 1] [- c; 1])).

(** Moment of inertia about the axis parallel to x through (0, 0, c). *)
Definition inertia_xx_about (c : R) (s : solid) : R :=
  sum_slabs (slab_integral (inertia_density c)) s.

(** [matrixOfInertia(...)[0][0]]: the kernel reports the matrix of inertia
    about the centre of mass. *)
Definition matrixOfInertia_xx (s : solid) : R :=
  inertia_xx_about (centerOfMass_z s) s.

End Cq.

(** ** numpy *)

Module Np.

(** [numpy.linspace(start, stop, num)]: [num] samples [i * step + start]
    with [step = (stop - start) / (num - 1)]; the last sample is set to
    [stop]. *)
Definition linspace (start stop : R) (num : nat) : list R :=
  let div := (num - 1)%nat in
  let step := (stop - start) / INR div in
  map (fun i => if (1 <? num)%nat && (i =? div)%nat
                then stop else INR i * step + start)
      (seq 0 num).

End Np.

(** ** The notebook *)

Module Notebook.
Import Poly Cq Np.

(** Modelled from the spec: a tank geometry of the library, as far as the
    notebook reads it ([total_height] and [radius(position)]); the class
    is not among the sources. *)
Record TankGeometry := mkTankGeometry {
  total_height : R;
  radius : R -> R
}.

(** A cell of a CSV row. *)
Inductive cell : Type :=
| Text (s : string)
| Number (x : R).

(** The file written: its name and its rows, the header row first. *)
Definition export_expected_parameters (name : string)
  (datapoints : list (list R)) : string * list (list cell) :=
  ((name ++ "_expected.csv")%string,
   [Text "level_height"; Text "volume"; Text "center_of_mass"; Text "inertia"]
   :: map (fun data_row => map Number data_row) datapoints).

Definition evaluate_sphere_parameters (radius level_height : R)
  : R * R * R :=
  let sphere0 := sphere radius in
  let drill_height := 10 * radius in
  let sphere1 :=
    cut sphere0
        (translate (drill_height / 2 + level_height)
                   (cylinder drill_height radius)) in
  let primitive := val sphere1 in
  let volume := Volume primitive in
  let center_of_mass_z := centerOfMass_z primitive in
  let inertia_tensor_00 := matrixOfInertia_xx primitive in
  (volume, center_of_mass_z, inertia_tensor_00 + volume * center_of_mass_z ^ 2).

(** The datapoints of one entry of [geometry_map["sphere"]]. *)
Definition sphere_datapoints (sphere_geometry : TankGeometry) : list (list R) :=
  let radius := total_height sphere_geometry / 2 in
  map (fun h => let '(volume, center_of_mass, inertia) :=
                  evaluate_sphere_parameters radius h in
                [h; volume; center_of_mass; inertia])
      (linspace (- radius) radius 25).

(** The loop over [geometry_map["sphere"].items()]. *)
Definition export_spheres (items : list (string * TankGeometry))
  : list (string * list (list cell)) :=
  map (fun '(name, sphere_geometry) =>
         export_expected_parameters name (sphere_datapoints sphere_geometry))
      items.

Definition evaluate_cylinder_with_caps (total_length radius level_height : R)
  : R * R * R :=
  let cylinder_height := total_length - 2 * radius in
  let cylinder0 := cylinder cylinder_height radius in
  let top_cap := translate (total_length / 2 - radius) (sphere radius) in
  let bottom_cap := translate (- total_length / 2 + radius) (sphere radius) in
  let solid0 := union (union cylinder0 top_cap) bottom_cap in
  let drill_height := 10 * total_length in
  let solid1 :=
    cut solid0
        (translate (drill_height / 2 + level_height)
                   (cylinder drill_height radius)) in
  let primitive := val solid1 in
  let volume := Volume primitive in
  let center_of_mass_z := centerOfMass_z primitive in
  let inertia_tensor_00 := matrixOfInertia_xx primitive in
  (volume, center_of_mass_z, inertia_tensor_00 + volume * center_of_mass_z ^ 2).

(** The datapoints of one entry of [geometry_map["cylinder"]]. *)
Definition cylinder_datapoints (cylinder_geometry : TankGeometry)
  : list (list R) :=
  let radius := radius cylinder_geometry 0 in
  let length := total_height cylinder_geometry in
  map (fun h => let '(volume, center_of_mass, inertia) :=
                  evaluate_cylinder_with_caps length radius h in
                [h; volume; center_of_mass; inertia])
      (linspace (- length / 2) (length / 2) 25).

(** The loop over [geometry_map["cylinder"].items()]. *)
Definition export_cylinders (items : list (string * TankGeometry))
  : list (string * list (list cell)) :=
  map (fun '(name, cylinder_geometry) =>
         export_expected_parameters name (cylinder_datapoints cylinder_geometry))
      items.

End Notebook.

(** ** Vocabulary of the statements *)

Module Geom.
Import Poly Cq Notebook.

(** The three values an evaluation returns. *)
Definition volume_of (r : R * R * R) : R := fst (fst r).
Definition center_of_mass_of (r : R * R * R) : R := snd (fst r).
Definition inertia_of (r : R * R * R) : R := snd r.

(** The solid [evaluate_cylinder_with_caps] builds before it cuts at the
    level. *)
Definition capped_cylinder (total_length radius : R) : solid :=
  union (union (cylinder (total_length - 2 * radius) radius)
               (translate (total_length / 2 - radius) (sphere radius)))
        (translate (- total_length / 2 + radius) (sphere radius)).

(** The long cylinder both evaluators cut with. *)
Definition drill (drill_height radius level_height : R) : solid :=
  translate (drill_height / 2 + level_height) (cylinder drill_height radius).

(** The two shapes the notebook evaluates, with the arguments of their
    evaluators. *)
Inductive shape : Type :=
| Sphere (radius : R)
| CylinderWithCaps (total_length radius : R).

(** Positive radius; the caps leave a straight section of length >= 0. *)
Definition valid (sh : shape) : Prop :=
  match sh with
  | Sphere R => 0 < R
  | CylinderWithCaps L r => 0 < r /\ 2 * r <= L
  end.

Definition evaluate (sh : shape) (h : R) : R * R * R :=
  match sh with
  | Sphere R => evaluate_sphere_parameters R h
  | CylinderWithCaps L r => evaluate_cylinder_with_caps L r h
  end.

(** The valid levels of a shape are [- half_height, half_height]. *)
Definition half_height (sh : shape) : R :=
  match sh with
  | Sphere R => R
  | CylinderWithCaps L r => L / 2
  end.

Definition max_radius (sh : shape) : R :=
  match sh with
  | Sphere R => R
  | CylinderWithCaps L r => r
  end.

(** The [drill_height] of the evaluator of the shape. *)
Definition reach (sh : shape) : R :=
  match sh with
  | Sphere R => 10 * R
  | CylinderWithCaps L r => 10 * L
  end.

(** The shape before the level is cut, and the region left after. *)
Definition full_solid (sh : shape) : solid :=
  match sh with
  | Sphere R => sphere R
  | CylinderWithCaps L r => capped_cylinder L r
  end.

Definition level_solid (sh : shape) (h : R) : solid :=
  cut (full_solid sh) (drill (reach sh) (max_radius sh) h).

(** [x] brought back into [a, b]. *)
Definition clamp (x a b : R) : R := Rmax a (Rmin b x).

(** Slab [a] is a piece of a solid that lies between the heights [zmin]
    and [zmax] and inside the cylinder of squared radius [r2]. *)
Definition fits (zmin zmax r2 : R) (a : slab) : Prop :=
  lo a <= hi a /\ zmin <= lo a /\ hi a <= zmax /\
  forall z, lo a <= z <= hi a -> 0 <= radius2 a z <= r2.

(** Slab [a'] is slab [a] on a smaller z-range. *)
Definition part_of (a' a : slab) : Prop :=
  prof a' = prof a /\ lo a <= lo a' /\ lo a' <= hi a' /\ hi a' <= hi a.

(** Integral of the density [g] over the part of slab [a] below height [x]
    or above height [y]. *)
Definition filled (g : poly -> poly) (x y : R) (a : slab) : R :=
  PI * integral (g (prof a)) (lo a) (clamp x (lo a) (hi a))
  + PI * integral (g (prof a)) (clamp y (lo a) (hi a)) (hi a).

(** The squared radius of the disc a solid has at height [z], 0 where it
    has no point: what the slabs of a solid stand for. *)
Definition section_at (s : solid) (z : R) : R :=
  fold_right (fun a acc =>
                if Rle_dec (lo a) z
                then if Rle_dec z (hi a) then Rmax (radius2 a z) acc else acc
                else acc) 0 s.

(** The levels both loops sample for a geometry. *)
Definition levels (g : TankGeometry) : list R :=
  Np.linspace (- (total_height g / 2)) (total_height g / 2) 25.

(** The header row and the row of one evaluation. *)
Definition header : list cell :=
  [Text "level_height"; Text "volume"; Text "center_of_mass"; Text "inertia"].

Definition record_of (h : R) (r : R * R * R) : list cell :=
  [Number h; Number (volume_of r); Number (center_of_mass_of r);
   Number (inertia_of r)].

(** The volume of the cap of height [t] of a ball of radius [r]. *)
Definition cap_volume (r t : R) : R := PI * t ^ 2 * (3 * r - t) / 3.

(** The volume of a capped cylinder below the level [h]: a cap of the
    bottom sphere, then the bottom hemisphere and a piece of the cylinder,
    then everything but a cap of the top sphere. *)
Definition capsule_volume (L r h : R) : R :=
  let c := L / 2 - r in
  if Rle_dec h (- c) then cap_volume r (h + L / 2)
  else if Rle_dec h c then 2 / 3 * PI * r ^ 3 + PI * r ^ 2 * (h + c)
  else PI * r ^ 2 * (L - 2 * r) + 4 / 3 * PI * r ^ 3
       - cap_volume r (L / 2 - h).

(** The level of row [i] of a table. *)
Definition level_at (g : TankGeometry) (i : nat) : R :=
  - (total_height g / 2) + INR i * (total_height g / 24).

(** *** The filled region, from the shape alone

    The region a tank filled up to the level [h] holds is the part of the
    full shape at or below the plane z = h.  The definitions below take it
    from [full_solid] and the level only: they use neither the drill nor
    the kernel's [cut], [centerOfMass] and [matrixOfInertia], so that what
    the evaluators return can be compared with them. *)

(** Integral of the density [g] over the part of the shape at or below the
    level [h]. *)
Definition filled_integral (g : poly -> poly) (sh : shape) (h : R) : R :=
  sum_slabs (fun a => PI * integral (g (prof a)) (lo a)
                                    (clamp h (lo a) (hi a)))
            (full_solid sh).

Definition filled_volume (sh : shape) (h : R) : R :=
  filled_integral (fun p => p) sh h.

(** First moment about the plane z = 0. *)
Definition filled_moment (sh : shape) (h : R) : R :=
  filled_integral (fun p => pmul [0; 1] p) sh h.

(** Height of the centroid of the filled region (on the axis, by symmetry);
    0 for the empty region. *)
Definition filled_centroid (sh : shape) (h : R) : R :=
  if Req_dec_T (filled_volume sh h) 0 then 0
  else filled_moment sh h / filled_volume sh h.

(** Integrated over a disc of squared radius [p] at height z, y^2 +
    (z - c)^2 gives pi * (p^2 / 4 + p * (z - c)^2). *)
Definition central_density (c : R) (p : poly) : poly :=
  padd (pscale (1 / 4) (pmul p p)) (pmul p (pmul [- c; 1] [- c; 1])).

(** The central moment of inertia of the filled region: its moment about
    the axis parallel to x through its own centroid. *)
Definition filled_central_moment (sh : shape) (h : R) : R :=
  filled_integral (central_density (filled_centroid sh h)) sh h.

End Geom.

(** ** Construction of a tank shape *)

Module TankShape.
Import Geom.

(** Modelled from the spec: the error of a shape whose declared dimensions
    are refused (a non-positive radius or length; caps whose diameter
    exceeds the total length). *)
Inductive ConfigurationError : Type :=
| NonPositiveDimension
| CapsExceedLength.

(** Modelled from the spec: the constructor of a spherical tank shape.  The
    notebook imports [SphericalTank] from the library, whose code is not
    among the sources; the spec has a shape with a non-positive radius
    refused when it is constructed. *)
Definition SphericalTank (radius : R) : ConfigurationError + shape :=
  if Rlt_dec 0 radius then inr (Sphere radius) else inl NonPositiveDimension.

(** Modelled from the spec: the constructor of a cylindrical tank shape
    with spherical caps ([CylindricalTank(radius, height, True)], not
    among the sources).  The spec has non-positive dimensions refused, and
    caps whose diameter exceeds the total length refused, when the shape is
    constructed. *)
Definition CylindricalTank (radius height : R) : ConfigurationError + shape :=
  if Rlt_dec 0 radius then
    if Rlt_dec 0 height then
      if Rle_dec (2 * radius) height
      then inr (CylinderWithCaps height radius)
      else inl CapsExceedLength
    else inl NonPositiveDimension
  else inl NonPositiveDimension.

(** Modelled from the spec: an evaluation needs a constructed shape. *)
Definition evaluate_tank (t : ConfigurationError + shape) (h : R)
  : ConfigurationError + R * R * R :=
  match t with
  | inl e => inl e
  | inr sh => inr (evaluate sh h)
  end.

End TankShape.

(** * Facts *)

Ltac real_cases :=
  repeat match goal with
  | |- context [Rmax ?x ?y] =>
      first [ rewrite (Rmax_left x y) by lra
            | rewrite (Rmax_right x y) by lra ]
  | |- context [Rmin ?x ?y] =>
      first [ rewrite (Rmin_left x y) by lra
            | rewrite (Rmin_right x y) by lra ]
  | |- context [Rlt_dec ?x ?y] =>
      destruct (Rlt_dec x y); [ try (exfalso; nra) | try (exfalso; nra) ]
  | |- context [Rle_dec ?x ?y] =>
      destruct (Rle_dec x y); [ try (exfalso; nra) | try (exfalso; nra) ]
  end.

Module PolyFacts.
Import Poly.

Lemma peval_padd p q z : peval (padd p q) z = peval p z + peval q z.
Proof.
  revert q; induction p as [|a p IH]; intros [|b q]; simpl; try ring.
  rewrite IH; ring.
Qed.

Lemma peval_pscale k p z : peval (pscale k p) z = k * peval p z.
Proof.
  induction p as [|a p IH]; simpl; [ring|].
  fold (pscale k p); rewrite IH; ring.
Qed.

Lemma peval_pmul p q z : peval (pmul p q) z = peval p z * peval q z.
Proof.
  induction p as [|a p IH]; simpl; [ring|].
  rewrite peval_padd, peval_pscale; simpl; rewrite IH; ring.
Qed.

Lemma peval_pshift d p z : peval (pshift d p) z = peval p (z - d).
Proof.
  induction p as [|a p IH]; [reflexivity|].
  cbn [pshift]; rewrite peval_padd, peval_pmul, IH; simpl; ring.
Qed.

(** The primitive is a primitive: its derivative is the polynomial. *)
Lemma pprim_from_deriv p : forall n z,
  derivable_pt_lim (fun x => x ^ S n * peval (pprim_from n p) x) z
                   (z ^ n * peval p z).
Proof.
  induction p as [|a p IH]; intros n z.
  - simpl pprim_from; simpl peval.
    replace (z ^ n * 0) with 0 by ring.
    apply derivable_pt_lim_ext with (f := fun _ : R => 0).
    + intros x; ring.
    + apply derivable_pt_lim_const.
  - simpl pprim_from.
    apply derivable_pt_lim_ext
      with (f := fun x => (a / INR (S n)) * x ^ S n
                          + x ^ S (S n) * peval (pprim_from (S n) p) x).
    + intros x; simpl; ring.
    + replace (z ^ n * peval (a :: p) z)
        with ((a / INR (S n)) * (INR (S n) * z ^ pred (S n))
              + z ^ S n * peval p z).
      * apply derivable_pt_lim_plus; [|apply IH].
        apply derivable_pt_lim_scal, derivable_pt_lim_pow.
      * assert (Hn : INR (S n) <> 0) by (apply not_0_INR; lia).
        simpl pred; simpl peval; simpl pow; field; exact Hn.
Qed.

Lemma pprim_deriv p z :
  derivable_pt_lim (peval (pprim p)) z (peval p z).
Proof.
  apply derivable_pt_lim_ext
    with (f := fun x => x ^ 1 * peval (pprim_from 0 p) x).
  - intros x; unfold pprim; simpl; ring.
  - replace (peval p z) with (z ^ 0 * peval p z) by (simpl; ring).
    apply pprim_from_deriv.
Qed.

Lemma integral_same p a : integral p a a = 0.
Proof. unfold integral; ring. Qed.

Lemma integral_chasles p a b c :
  integral p a c = integral p a b + integral p b c.
Proof. unfold integral; ring. Qed.

(** A polynomial that is non-negative on [a, b] has a non-negative integral
    there (mean value theorem on the primitive). *)
Lemma integral_nonneg p a b :
  a <= b -> (forall z, a <= z <= b -> 0 <= peval p z) ->
  0 <= integral p a b.
Proof.
  intros [Hab|Hab] Hp.
  - destruct (MVT_cor2 (peval (pprim p)) (peval p) a b Hab) as [c [Hc Hin]].
    + intros x _; apply pprim_deriv.
    + unfold integral; rewrite Hc.
      apply Rmult_le_pos; [apply Hp; lra | lra].
  - subst b; rewrite integral_same; lra.
Qed.


End PolyFacts.

(** ** Slabs, carving and the integrals over a cut solid *)

Module CqFacts.
Import Poly PolyFacts Cq Notebook Geom.

Lemma clamp_in x a b : a <= x <= b -> clamp x a b = x.
Proof. intros H; unfold clamp; rewrite Rmin_right, Rmax_right; lra. Qed.

Lemma clamp_above x a b : a <= b -> b <= x -> clamp x a b = b.
Proof. intros H1 H2; unfold clamp; rewrite Rmin_left, Rmax_right; lra. Qed.

Lemma clamp_below x a b : a <= b -> x <= a -> clamp x a b = a.
Proof. intros H1 H2; unfold clamp; rewrite Rmin_right, Rmax_left; lra. Qed.

Lemma clamp_range x a b : a <= b -> a <= clamp x a b <= b.
Proof.
  intros H; unfold clamp, Rmax, Rmin.
  destruct (Rle_dec b x); destruct (Rle_dec a _); lra.
Qed.

Lemma clamp_mono x y a b : x <= y -> clamp x a b <= clamp y a b.
Proof.
  intros H; unfold clamp.
  apply Rle_max_compat_l, Rle_min_compat_l, H.
Qed.

Lemma clamp_clamp x a b c d :
  c <= a -> a <= b -> b <= d -> clamp (clamp x c d) a b = clamp x a b.
Proof.
  intros H1 H2 H3.
  destruct (Rle_dec x c) as [Hc|Hc].
  - rewrite (clamp_below x c d), !clamp_below; lra.
  - destruct (Rle_dec x d) as [Hd|Hd].
    + rewrite (clamp_in x c d); lra.
    + rewrite (clamp_above x c d), !clamp_above; lra.
Qed.

Lemma sum_slabs_app f s t : sum_slabs f (s ++ t) = sum_slabs f s + sum_slabs f t.
Proof. induction s as [|a s IH]; simpl; [ring | rewrite IH; ring]. Qed.

Lemma sum_slabs_flat_map f (k : slab -> solid) s :
  sum_slabs f (flat_map k s) = sum_slabs (fun a => sum_slabs f (k a)) s.
Proof.
  induction s as [|a s IH]; simpl; [reflexivity|].
  rewrite sum_slabs_app, IH; reflexivity.
Qed.

Lemma sum_slabs_ext f g s :
  (forall a, In a s -> f a = g a) -> sum_slabs f s = sum_slabs g s.
Proof.
  induction s as [|a s IH]; intros H; simpl; [reflexivity|].
  rewrite (H a (or_introl eq_refl)), IH; [reflexivity|].
  intros b Hb; apply H; right; exact Hb.
Qed.

Lemma sum_slabs_nonneg f s :
  (forall a, In a s -> 0 <= f a) -> 0 <= sum_slabs f s.
Proof.
  induction s as [|a s IH]; intros H; simpl; [lra|].
  assert (0 <= f a) by (apply H; left; reflexivity).
  assert (0 <= sum_slabs f s) by (apply IH; intros b Hb; apply H; right; exact Hb).
  lra.
Qed.

Lemma sum_slabs_le f g s :
  (forall a, In a s -> f a <= g a) -> sum_slabs f s <= sum_slabs g s.
Proof.
  induction s as [|a s IH]; intros H; simpl; [lra|].
  assert (f a <= g a) by (apply H; left; reflexivity).
  assert (sum_slabs f s <= sum_slabs g s)
    by (apply IH; intros b Hb; apply H; right; exact Hb).
  lra.
Qed.

Lemma carve_one hides a b :
  carve hides a [b] = if hides a b then clip_out a (lo b) (hi b) else [a].
Proof. unfold carve; simpl; apply app_nil_r. Qed.

Lemma below_measure g a x :
  lo a <= hi a ->
  sum_slabs (slab_integral g) (below a x)
  = PI * integral (g (prof a)) (lo a) (clamp x (lo a) (hi a)).
Proof.
  intros Ha; unfold below, clamp.
  destruct (Rlt_dec (lo a) (Rmin (hi a) x)) as [H|H].
  - rewrite Rmax_right by lra. unfold slab_integral; simpl; ring.
  - rewrite Rmax_left by lra. rewrite integral_same; simpl; ring.
Qed.

Lemma above_measure g a y :
  lo a <= hi a ->
  sum_slabs (slab_integral g) (above a y)
  = PI * integral (g (prof a)) (clamp y (lo a) (hi a)) (hi a).
Proof.
  intros Ha; unfold above, clamp.
  destruct (Rlt_dec (Rmax (lo a) y) (hi a)) as [H|H].
  - assert (y < hi a) by (apply Rle_lt_trans with (2 := H), Rmax_r).
    rewrite (Rmin_right (hi a) y) by lra.
    unfold slab_integral; simpl; ring.
  - assert (Hm : Rmax (lo a) (Rmin (hi a) y) = hi a).
    { unfold Rmax, Rmin in *.
      destruct (Rle_dec (lo a) y), (Rle_dec (hi a) y);
        destruct (Rle_dec (lo a) (hi a)); try destruct (Rle_dec (lo a) y); lra. }
    rewrite Hm, integral_same; simpl; ring.
Qed.

Lemma carve_drill_measure g a b :
  lo a <= hi a -> lo b <= hi b ->
  (forall z, lo a <= z <= hi a -> radius2 a z <= radius2 b z) ->
  sum_slabs (slab_integral g) (carve inside a [b])
  = PI * integral (g (prof a)) (lo a) (clamp (lo b) (lo a) (hi a))
    + PI * integral (g (prof a)) (clamp (hi b) (lo a) (hi a)) (hi a).
Proof.
  intros Ha Hb Hin.
  rewrite carve_one; unfold inside.
  destruct (Rlt_dec (common_lo a b) (common_hi a b)) as [Hc|Hc].
  - destruct (Rle_dec _ _) as [_|Hn].
    + unfold clip_out.
      rewrite sum_slabs_app, below_measure, above_measure by exact Ha.
      reflexivity.
    + exfalso; apply Hn, Hin.
      unfold common_mid, common_lo, common_hi, Rmax, Rmin in *.
      destruct (Rle_dec (lo a) (lo b)), (Rle_dec (hi a) (hi b)); lra.
  - assert (Hcl : clamp (lo b) (lo a) (hi a) = clamp (hi b) (lo a) (hi a)).
    { unfold common_lo, common_hi, clamp, Rmax, Rmin in *.
      repeat match goal with
      | H : context [Rle_dec ?x ?y] |- _ => destruct (Rle_dec x y)
      | |- context [Rle_dec ?x ?y] => destruct (Rle_dec x y)
      end; lra. }
    rewrite Hcl; simpl; unfold slab_integral.
    rewrite (integral_chasles _ (lo a) (clamp (hi b) (lo a) (hi a)) (hi a)); ring.
Qed.

Lemma part_of_refl a : lo a <= hi a -> part_of a a.
Proof. intros H; repeat split; lra. Qed.

Lemma part_of_trans a b c : part_of a b -> part_of b c -> part_of a c.
Proof.
  intros (Hp & H1 & H2 & H3) (Hq & H4 & H5 & H6).
  repeat split; [congruence | lra | lra | lra].
Qed.

Lemma below_part a x : Forall (fun p => part_of p a) (below a x).
Proof.
  unfold below; destruct (Rlt_dec (lo a) (Rmin (hi a) x)) as [H|H];
    [|constructor].
  constructor; [|constructor].
  pose proof (Rmin_l (hi a) x).
  repeat split; simpl; lra.
Qed.

Lemma above_part a y : Forall (fun p => part_of p a) (above a y).
Proof.
  unfold above; destruct (Rlt_dec (Rmax (lo a) y) (hi a)) as [H|H];
    [|constructor].
  constructor; [|constructor].
  pose proof (Rmax_l (lo a) y).
  repeat split; simpl; lra.
Qed.

Lemma clip_out_part a x y : Forall (fun p => part_of p a) (clip_out a x y).
Proof. apply Forall_app; split; [apply below_part | apply above_part]. Qed.

Lemma carve_part hides a B :
  lo a <= hi a -> Forall (fun p => part_of p a) (carve hides a B).
Proof.
  intros Ha; unfold carve.
  assert (H0 : Forall (fun p => part_of p a) [a])
    by (constructor; [apply part_of_refl, Ha | constructor]).
  revert H0; generalize [a] as pieces.
  induction B as [|b B IH]; intros pieces Hp; simpl; [exact Hp|].
  apply IH.
  induction Hp as [|p ps Hpa _ IHp]; simpl; [constructor|].
  apply Forall_app; split; [|exact IHp].
  destruct (hides p b).
  - eapply Forall_impl; [|apply clip_out_part].
    intros q Hq; exact (part_of_trans _ _ _ Hq Hpa).
  - constructor; [exact Hpa | constructor].
Qed.

Section Fits.
Variables zmin zmax r2 : R.
Let ok := Forall (fits zmin zmax r2).

Lemma fits_part a' a : fits zmin zmax r2 a -> part_of a' a -> fits zmin zmax r2 a'.
Proof.
  intros (Hle & Hlo & Hhi & Hr) (Hp & H1 & H2 & H3).
  split; [lra|]; split; [lra|]; split; [lra|].
  intros z Hz; unfold radius2; rewrite Hp; apply Hr; lra.
Qed.

Lemma fits_carve hides a B : fits zmin zmax r2 a -> ok (carve hides a B).
Proof.
  intros Ha; eapply Forall_impl; [|apply carve_part, Ha].
  intros p Hp; exact (fits_part _ _ Ha Hp).
Qed.

Lemma fits_flat_map (k : slab -> solid) s :
  (forall a, In a s -> ok (k a)) -> ok (flat_map k s).
Proof.
  intros H; apply Forall_forall; intros p Hp.
  apply in_flat_map in Hp as [a [Ha Hpa]].
  exact (proj1 (Forall_forall _ _) (H a Ha) p Hpa).
Qed.

Lemma fits_cut A B : ok A -> ok (cut A B).
Proof.
  intros HA; apply fits_flat_map; intros a Ha.
  apply fits_carve, (proj1 (Forall_forall _ _) HA a Ha).
Qed.

Lemma fits_union A B : ok A -> ok B -> ok (union A B).
Proof.
  intros HA HB; apply Forall_app; split; apply fits_flat_map; intros a Ha;
    apply fits_carve; [exact (proj1 (Forall_forall _ _) HA a Ha)
                      | exact (proj1 (Forall_forall _ _) HB a Ha)].
Qed.

End Fits.

Lemma fits_weaken x y q x' y' q' s :
  x' <= x -> y <= y' -> q <= q' ->
  Forall (fits x y q) s -> Forall (fits x' y' q') s.
Proof.
  intros Hx Hy Hq; apply Forall_impl; intros a (Hle & Hlo & Hhi & Hr).
  split; [lra|]; split; [lra|]; split; [lra|].
  intros z Hz; destruct (Hr z Hz); lra.
Qed.

Lemma fits_translate x y q dz s :
  Forall (fits x y q) s -> Forall (fits (x + dz) (y + dz) q) (translate dz s).
Proof.
  intros H; unfold translate; apply Forall_forall; intros p Hp.
  apply in_map_iff in Hp as [a [<- Ha]].
  destruct (proj1 (Forall_forall _ _) H a Ha) as (Hle & Hlo & Hhi & Hr).
  split; [simpl; lra|]; split; [simpl; lra|]; split; [simpl; lra|].
  unfold radius2; simpl; intros z Hz.
  rewrite peval_pshift; apply Hr; lra.
Qed.

Lemma fits_sphere r : 0 <= r -> Forall (fits (- r) r (r * r)) (sphere r).
Proof.
  intros Hr; constructor; [|constructor].
  split; [simpl; lra|]; split; [simpl; lra|]; split; [simpl; lra|].
  unfold radius2; simpl; intros z Hz; nra.
Qed.

Lemma fits_cylinder h r :
  0 <= h -> Forall (fits (- (h / 2)) (h / 2) (r * r)) (cylinder h r).
Proof.
  intros Hh; constructor; [|constructor].
  split; [simpl; lra|]; split; [simpl; lra|]; split; [simpl; lra|].
  unfold radius2; simpl; intros z Hz; nra.
Qed.

Lemma peval_inertia_density c p z :
  peval (inertia_density c p) z
  = peval p z * peval p z / 4 + peval p z * ((z - c) * (z - c)).
Proof.
  unfold inertia_density.
  rewrite peval_padd, peval_pscale, !peval_pmul; simpl; field.
Qed.

Section Measures.
Variables (zmin zmax r2 : R) (s : solid).
Hypothesis Hs : Forall (fits zmin zmax r2) s.

Lemma Volume_nonneg : 0 <= Volume s.
Proof.
  apply sum_slabs_nonneg; intros a Ha.
  destruct (proj1 (Forall_forall _ _) Hs a Ha) as (Hle & _ & _ & Hr).
  apply Rmult_le_pos; [left; apply PI_RGT_0|].
  apply integral_nonneg; [assumption | intros z Hz; apply Hr, Hz].
Qed.

Lemma inertia_xx_about_nonneg c : 0 <= inertia_xx_about c s.
Proof.
  apply sum_slabs_nonneg; intros a Ha.
  destruct (proj1 (Forall_forall _ _) Hs a Ha) as (Hle & _ & _ & Hr).
  apply Rmult_le_pos; [left; apply PI_RGT_0|].
  apply integral_nonneg; [assumption|].
  intros z Hz; rewrite peval_inertia_density.
  destruct (Hr z Hz) as [Hpos _]; unfold radius2 in Hpos.
  assert (0 <= (z - c) * (z - c)) by apply Rle_0_sqr.
  assert (0 <= peval (prof a) z * ((z - c) * (z - c)))
    by (apply Rmult_le_pos; assumption).
  assert (0 <= peval (prof a) z * peval (prof a) z)
    by (apply Rmult_le_pos; assumption).
  lra.
Qed.

End Measures.

(** The drill: one slab from the level upwards. *)
Lemma drill_fits D r h :
  0 <= D -> Forall (fits h (h + D) (r * r)) (drill D r h).
Proof.
  intros HD; unfold drill.
  eapply fits_weaken; [| | |apply fits_translate, fits_cylinder, HD]; lra.
Qed.

Lemma cut_drill_measure g zmin zmax r s D h :
  0 <= D -> Forall (fits zmin zmax (r * r)) s ->
  sum_slabs (slab_integral g) (cut s (drill D r h))
  = sum_slabs (filled g h (h + D)) s.
Proof.
  intros HD Hs; unfold cut; rewrite sum_slabs_flat_map.
  apply sum_slabs_ext; intros a Ha.
  destruct (proj1 (Forall_forall _ _) Hs a Ha) as (Hle & _ & _ & Hr).
  unfold drill, cylinder, translate; cbn [map].
  rewrite carve_drill_measure; cbn [lo hi prof].
  - unfold filled; do 4 f_equal; lra.
  - exact Hle.
  - lra.
  - intros z Hz; unfold radius2 at 2; cbn [prof].
    rewrite peval_pshift; simpl.
    apply Rle_trans with (r * r); [apply Hr, Hz | lra].
Qed.

Lemma filled_below_only g x y a :
  lo a <= hi a -> hi a <= y ->
  filled g x y a = PI * integral (g (prof a)) (lo a) (clamp x (lo a) (hi a)).
Proof.
  intros H1 H2; unfold filled.
  rewrite (clamp_above y), integral_same by lra; ring.
Qed.

Lemma volume_cut_mono zmin zmax r s D h1 h2 :
  0 <= D -> Forall (fits zmin zmax (r * r)) s ->
  zmax <= h1 + D -> h1 <= h2 ->
  Volume (cut s (drill D r h1)) <= Volume (cut s (drill D r h2)).
Proof.
  intros HD Hs Htop Hh; unfold Volume.
  rewrite !(cut_drill_measure _ zmin zmax) by assumption.
  apply sum_slabs_le; intros a Ha.
  destruct (proj1 (Forall_forall _ _) Hs a Ha) as (Hle & Hlo & Hhi & Hr).
  rewrite !filled_below_only by lra.
  pose proof (clamp_range h1 _ _ Hle) as H1.
  pose proof (clamp_range h2 _ _ Hle) as H2.
  pose proof (clamp_mono h1 h2 (lo a) (hi a) Hh) as H12.
  rewrite (integral_chasles _ (lo a) (clamp h1 (lo a) (hi a))
                            (clamp h2 (lo a) (hi a))).
  assert (0 <= integral (prof a) (clamp h1 (lo a) (hi a)) (clamp h2 (lo a) (hi a))).
  { apply integral_nonneg; [exact H12|].
    intros z Hz; apply Hr; lra. }
  pose proof PI_RGT_0. nra.
Qed.

End CqFacts.

(** ** The two shapes of the notebook *)

Module ShapeFacts.
Import Poly PolyFacts Cq Np Notebook Geom CqFacts.

Ltac geom :=
  unfold clip_out, inside, strictly_inside, below, above,
    common_mid, common_lo, common_hi, radius2;
  cbn [lo hi prof]; rewrite ?peval_pshift; cbn [peval];
  real_cases; cbn [app flat_map].

Lemma fits_capped_cylinder L r :
  0 <= r -> 2 * r <= L ->
  Forall (fits (- (L / 2)) (L / 2) (r * r)) (capped_cylinder L r).
Proof.
  intros Hr HL; unfold capped_cylinder.
  repeat apply fits_union.
  - eapply fits_weaken; [| | |apply fits_cylinder]; lra.
  - eapply fits_weaken; [| | |apply fits_translate, fits_sphere, Hr]; lra.
  - eapply fits_weaken; [| | |apply fits_translate, fits_sphere, Hr]; lra.
Qed.

Lemma fits_full_solid sh :
  valid sh ->
  Forall (fits (- half_height sh) (half_height sh)
               (max_radius sh * max_radius sh)) (full_solid sh).
Proof.
  destruct sh as [R|L r]; simpl; intros Hv.
  - apply fits_sphere; lra.
  - apply fits_capped_cylinder; lra.
Qed.

Lemma reach_pos sh :
  valid sh -> 0 < half_height sh /\ half_height sh * 2 <= reach sh.
Proof. destruct sh as [R|L r]; simpl; intros Hv; lra. Qed.

Lemma evaluate_eq sh h :
  evaluate sh h
  = (Volume (level_solid sh h), centerOfMass_z (level_solid sh h),
     matrixOfInertia_xx (level_solid sh h)
     + Volume (level_solid sh h) * centerOfMass_z (level_solid sh h) ^ 2).
Proof. destruct sh; reflexivity. Qed.

Lemma fits_level_solid sh h :
  valid sh ->
  Forall (fits (- half_height sh) (half_height sh)
               (max_radius sh * max_radius sh)) (level_solid sh h).
Proof. intros Hv; apply fits_cut, fits_full_solid, Hv. Qed.

(** Every integral over the filled region, in terms of the full solid. *)
Lemma level_measure g sh h :
  valid sh ->
  sum_slabs (slab_integral g) (level_solid sh h)
  = sum_slabs (filled g h (h + reach sh)) (full_solid sh).
Proof.
  intros Hv; unfold level_solid.
  apply (cut_drill_measure g (- half_height sh) (half_height sh)).
  - pose proof (reach_pos sh Hv); lra.
  - apply fits_full_solid, Hv.
Qed.

(** Two levels that cut every slab at the same heights give the same
    evaluation. *)
Lemma evaluate_ext sh h h' :
  valid sh ->
  (forall g a, In a (full_solid sh) ->
     filled g h (h + reach sh) a = filled g h' (h' + reach sh) a) ->
  evaluate sh h = evaluate sh h'.
Proof.
  intros Hv Hf.
  assert (Hm : forall g, sum_slabs (slab_integral g) (level_solid sh h)
                         = sum_slabs (slab_integral g) (level_solid sh h')).
  { intros g; rewrite !level_measure by exact Hv.
    apply sum_slabs_ext; intros a Ha; apply Hf, Ha. }
  rewrite !evaluate_eq.
  assert (HV : Volume (level_solid sh h) = Volume (level_solid sh h')) by apply Hm.
  assert (HM : moment_z (level_solid sh h) = moment_z (level_solid sh h'))
    by apply Hm.
  assert (HC : centerOfMass_z (level_solid sh h)
               = centerOfMass_z (level_solid sh h'))
    by (unfold centerOfMass_z; rewrite HV, HM; reflexivity).
  assert (HI : matrixOfInertia_xx (level_solid sh h)
               = matrixOfInertia_xx (level_solid sh h'))
    by (unfold matrixOfInertia_xx, inertia_xx_about; rewrite HC; apply Hm).
  rewrite HV, HC, HI; reflexivity.
Qed.

(** As long as the drill reaches the top of the shape, a level outside the
    valid range gives what the nearest end of the range gives. *)
Lemma evaluate_clamp sh h :
  valid sh -> half_height sh <= h + reach sh ->
  evaluate sh h = evaluate sh (clamp h (- half_height sh) (half_height sh)).
Proof.
  intros Hv Hreach; apply evaluate_ext; [exact Hv|].
  intros g a Ha.
  destruct (proj1 (Forall_forall _ _) (fits_full_solid sh Hv) a Ha)
    as (Hle & Hlo & Hhi & _).
  pose proof (reach_pos sh Hv) as [Hpos Hr].
  pose proof (clamp_range h (- half_height sh) (half_height sh)) as Hc.
  rewrite !filled_below_only; try lra.
  rewrite clamp_clamp; [reflexivity | lra | lra | lra].
Qed.

(** The unit sphere filled up to its equator is its lower half. *)
Example unit_sphere_half :
  level_solid (Sphere 1) 0 = [mkSlab (- 1) 0 [1 * 1; 0; -1]].
Proof.
  unfold level_solid, full_solid, reach, max_radius, cut, drill, sphere,
    cylinder, translate, carve.
  cbn [map flat_map fold_left lo hi prof app].
  geom.
  replace (- (10 * 1 / 2) + (10 * 1 / 2 + 0)) with 0 by field.
  reflexivity.
Qed.

Lemma sphere_measure g R h :
  0 <= R ->
  sum_slabs (slab_integral g) (cut (sphere R) (drill (10 * R) R h))
  = PI * integral (g [R * R; 0; -1]) (- R) (clamp h (- R) R)
    + PI * integral (g [R * R; 0; -1]) (clamp (h + 10 * R) (- R) R) R.
Proof.
  intros HR.
  rewrite (cut_drill_measure g (- R) R) by (try apply fits_sphere; lra).
  unfold sphere, filled; simpl; ring.
Qed.

Lemma sphere_Volume R h :
  0 <= R -> - R <= h <= R ->
  Volume (cut (sphere R) (drill (10 * R) R h))
  = PI * (h + R) ^ 2 * (3 * R - (h + R)) / 3.
Proof.
  intros HR Hh; unfold Volume; rewrite sphere_measure by exact HR.
  rewrite clamp_in, clamp_above by lra.
  unfold integral; simpl; field.
Qed.

Lemma sphere_moment_z R h :
  0 <= R -> - R <= h <= R ->
  moment_z (cut (sphere R) (drill (10 * R) R h))
  = - PI * ((R - h) * (R + h)) ^ 2 / 4.
Proof.
  intros HR Hh; unfold moment_z; rewrite sphere_measure by exact HR.
  rewrite clamp_in, clamp_above by lra.
  unfold integral; simpl; field.
Qed.

Lemma sphere_Volume_pos R h :
  0 < R -> - R < h <= R -> 0 < Volume (level_solid (Sphere R) h).
Proof.
  intros HR Hh; unfold level_solid, full_solid, reach, max_radius.
  rewrite sphere_Volume by lra.
  assert (0 < (h + R) ^ 2) by (apply pow_lt; lra).
  assert (0 < (h + R) ^ 2 * (3 * R - (h + R))) by (apply Rmult_lt_0_compat; lra).
  pose proof PI_RGT_0.
  assert (0 < PI * ((h + R) ^ 2 * (3 * R - (h + R))))
    by (apply Rmult_lt_0_compat; lra).
  lra.
Qed.

Lemma sphere_centerOfMass R h :
  0 < R -> - R < h <= R ->
  centerOfMass_z (level_solid (Sphere R) h)
  = - (3 * (R - h) ^ 2) / (4 * (2 * R - h)).
Proof.
  intros HR Hh; unfold centerOfMass_z.
  pose proof (sphere_Volume_pos R h HR Hh) as Hpos.
  destruct (Req_dec_T (Volume (level_solid (Sphere R) h)) 0) as [E|_]; [lra|].
  unfold level_solid, full_solid, reach, max_radius.
  rewrite sphere_moment_z, sphere_Volume by lra.
  pose proof PI_RGT_0.
  field; repeat split; lra.
Qed.

Lemma sphere_empty_Volume R h :
  0 < R -> - 9 * R <= h <= - R -> Volume (level_solid (Sphere R) h) = 0.
Proof.
  intros HR Hh; unfold level_solid, full_solid, reach, max_radius, Volume.
  rewrite sphere_measure by lra.
  rewrite clamp_below, clamp_above by lra.
  rewrite !integral_same; ring.
Qed.

Lemma sphere_empty_centerOfMass R h :
  0 < R -> - 9 * R <= h <= - R -> centerOfMass_z (level_solid (Sphere R) h) = 0.
Proof.
  intros HR Hh; unfold centerOfMass_z.
  destruct (Req_dec_T (Volume (level_solid (Sphere R) h)) 0) as [_|N];
    [reflexivity|].
  exfalso; apply N, sphere_empty_Volume; assumption.
Qed.

Lemma capped_cylinder_slabs L r :
  0 < r -> 2 * r < L ->
  capped_cylinder L r
  = [ mkSlab (- ((L - 2 * r) / 2)) ((L - 2 * r) / 2) [r * r];
      mkSlab ((L - 2 * r) / 2) (r + (L / 2 - r))
             (pshift (L / 2 - r) [r * r; 0; -1]);
      mkSlab (- r + (- L / 2 + r)) (- ((L - 2 * r) / 2))
             (pshift (- L / 2 + r) [r * r; 0; -1]) ].
Proof.
  intros Hr HL.
  unfold capped_cylinder, union at 2, cylinder, sphere, translate.
  cbn [map flat_map app carve fold_left lo hi prof].
  destruct (Rlt_dec L (3 * r)) as [H3|H3].
  - geom. unfold union. cbn [map flat_map app carve fold_left lo hi prof].
    do 4 geom. reflexivity.
  - geom. unfold union. cbn [map flat_map app carve fold_left lo hi prof].
    do 4 geom. reflexivity.
Qed.

Lemma capped_cylinder_sphere r :
  0 < r ->
  capped_cylinder (2 * r) r
  = [ mkSlab (- ((2 * r - 2 * r) / 2)) ((2 * r - 2 * r) / 2) [r * r];
      mkSlab (- r + (2 * r / 2 - r)) (r + (2 * r / 2 - r))
             (pshift (2 * r / 2 - r) [r * r; 0; -1]) ].
Proof.
  intros Hr.
  unfold capped_cylinder, union at 2, cylinder, sphere, translate.
  cbn [map flat_map app carve fold_left lo hi prof].
  geom. unfold union. cbn [map flat_map app carve fold_left lo hi prof].
  do 4 geom. reflexivity.
Qed.

Lemma capped_cylinder_Volume L r :
  0 < r -> 2 * r <= L ->
  Volume (capped_cylinder L r) = PI * r ^ 2 * (L - 2 * r) + 4 / 3 * PI * r ^ 3.
Proof.
  intros Hr [HL|HL].
  - rewrite capped_cylinder_slabs by assumption.
    unfold Volume, sum_slabs, slab_integral, integral; simpl; field.
  - subst L; rewrite capped_cylinder_sphere by assumption.
    unfold Volume, sum_slabs, slab_integral, integral; simpl; field.
Qed.

Lemma capped_cylinder_moment_z L r :
  0 < r -> 2 * r <= L -> moment_z (capped_cylinder L r) = 0.
Proof.
  intros Hr [HL|HL].
  - rewrite capped_cylinder_slabs by assumption.
    unfold moment_z, sum_slabs, slab_integral, integral; simpl; field.
  - subst L; rewrite capped_cylinder_sphere by assumption.
    unfold moment_z, sum_slabs, slab_integral, integral; simpl; field.
Qed.

Lemma full_solid_Volume sh :
  valid sh ->
  Volume (full_solid sh)
  = match sh with
    | Sphere R => 4 / 3 * PI * R ^ 3
    | CylinderWithCaps L r => PI * r ^ 2 * (L - 2 * r) + 4 / 3 * PI * r ^ 3
    end.
Proof.
  destruct sh as [R|L r]; simpl; intros Hv.
  - unfold Volume, sum_slabs, slab_integral, integral; simpl; field.
  - apply capped_cylinder_Volume; lra.
Qed.

Lemma full_solid_Volume_pos sh : valid sh -> 0 < Volume (full_solid sh).
Proof.
  intros Hv; rewrite full_solid_Volume by exact Hv.
  pose proof PI_RGT_0 as Hpi.
  destruct sh as [R|L r]; simpl in Hv.
  - assert (0 < R ^ 3) by (apply pow_lt; lra).
    assert (0 < PI * R ^ 3) by (apply Rmult_lt_0_compat; lra). lra.
  - assert (0 < r ^ 3) by (apply pow_lt; lra).
    assert (0 < r ^ 2) by (apply pow_lt; lra).
    assert (0 < PI * r ^ 3) by (apply Rmult_lt_0_compat; lra).
    assert (0 <= PI * r ^ 2 * (L - 2 * r))
      by (apply Rmult_le_pos; [apply Rmult_le_pos|]; lra).
    lra.
Qed.

Lemma full_solid_centerOfMass sh : valid sh -> centerOfMass_z (full_solid sh) = 0.
Proof.
  intros Hv; unfold centerOfMass_z.
  destruct (Req_dec_T (Volume (full_solid sh)) 0) as [_|_]; [reflexivity|].
  assert (HM : moment_z (full_solid sh) = 0).
  { destruct sh as [R|L r]; simpl in *.
    - unfold moment_z, sum_slabs, slab_integral, integral; simpl; field.
    - apply capped_cylinder_moment_z; lra. }
  rewrite HM; unfold Rdiv; ring.
Qed.

(** At or above the top the evaluation is that of the full shape. *)
Lemma evaluate_full sh h :
  valid sh -> half_height sh <= h ->
  evaluate sh h
  = (Volume (full_solid sh), 0, inertia_xx_about 0 (full_solid sh)).
Proof.
  intros Hv Hh.
  assert (Hm : forall g, sum_slabs (slab_integral g) (level_solid sh h)
                         = sum_slabs (slab_integral g) (full_solid sh)).
  { intros g; rewrite level_measure by exact Hv.
    apply sum_slabs_ext; intros a Ha.
    destruct (proj1 (Forall_forall _ _) (fits_full_solid sh Hv) a Ha)
      as (Hle & Hlo & Hhi & _).
    pose proof (reach_pos sh Hv) as [Hpos Hr].
    rewrite filled_below_only, clamp_above by lra; reflexivity. }
  rewrite evaluate_eq.
  assert (HV : Volume (level_solid sh h) = Volume (full_solid sh)) by apply Hm.
  assert (HM : moment_z (level_solid sh h) = moment_z (full_solid sh)) by apply Hm.
  assert (HC : centerOfMass_z (level_solid sh h) = 0).
  { rewrite <- (full_solid_centerOfMass sh Hv).
    unfold centerOfMass_z; rewrite HV, HM; reflexivity. }
  assert (HI : matrixOfInertia_xx (level_solid sh h)
               = inertia_xx_about 0 (full_solid sh))
    by (unfold matrixOfInertia_xx, inertia_xx_about; rewrite HC; apply Hm).
  rewrite HV, HC, HI; f_equal; ring.
Qed.

(** At or below the bottom, as long as the drill reaches the top, nothing is
    left. *)
Lemma evaluate_empty sh h :
  valid sh -> h <= - half_height sh -> half_height sh <= h + reach sh ->
  evaluate sh h = (0, 0, 0).
Proof.
  intros Hv Hh Hreach.
  assert (Hm : forall g, sum_slabs (slab_integral g) (level_solid sh h) = 0).
  { intros g; rewrite level_measure by exact Hv.
    induction (fits_full_solid sh Hv) as [|a s Ha _ IH]; simpl; [reflexivity|].
    destruct Ha as (Hle & Hlo & Hhi & _).
    rewrite IH, filled_below_only, clamp_below, integral_same by lra; ring. }
  rewrite evaluate_eq.
  assert (HV : Volume (level_solid sh h) = 0) by apply Hm.
  assert (HC : centerOfMass_z (level_solid sh h) = 0).
  { unfold centerOfMass_z.
    destruct (Req_dec_T (Volume (level_solid sh h)) 0);
      [reflexivity | contradiction]. }
  assert (HI : matrixOfInertia_xx (level_solid sh h) = 0) by apply Hm.
  rewrite HV, HC, HI; repeat f_equal; ring.
Qed.

(** Below the reach of the drill nothing is cut at all. *)
Lemma evaluate_out_of_reach sh h :
  valid sh -> h + reach sh <= - half_height sh ->
  evaluate sh h
  = (Volume (full_solid sh), 0, inertia_xx_about 0 (full_solid sh)).
Proof.
  intros Hv Hh.
  rewrite <- (evaluate_full sh (half_height sh) Hv (Rle_refl _)).
  apply evaluate_ext; [exact Hv|].
  intros g a Ha.
  destruct (proj1 (Forall_forall _ _) (fits_full_solid sh Hv) a Ha)
    as (Hle & Hlo & Hhi & _).
  pose proof (reach_pos sh Hv) as [Hpos Hr].
  unfold filled.
  rewrite (clamp_below h), (clamp_below (h + reach sh)) by lra.
  rewrite (clamp_above (half_height sh)),
    (clamp_above (half_height sh + reach sh)) by lra.
  rewrite !integral_same; ring.
Qed.

Lemma linspace_length start stop num : List.length (linspace start stop num) = num.
Proof. unfold linspace; rewrite length_map, length_seq; reflexivity. Qed.

Lemma nth_map_seq (f : nat -> R) n i d :
  (i < n)%nat -> nth i (map f (seq 0 n)) d = f i.
Proof.
  intros Hi.
  rewrite (nth_indep _ d (f 0%nat)) by (rewrite length_map, length_seq; exact Hi).
  rewrite map_nth, seq_nth by exact Hi; reflexivity.
Qed.

Lemma linspace_nth start stop n i :
  (i <= n)%nat -> (0 < n)%nat ->
  nth i (linspace start stop (S n)) 0
  = start + INR i * ((stop - start) / INR n).
Proof.
  intros Hi Hn; unfold linspace.
  rewrite nth_map_seq by lia.
  replace (S n - 1)%nat with n by lia.
  assert (HnR : INR n <> 0) by (apply not_0_INR; lia).
  destruct (Nat.eqb_spec i n) as [->|Hne].
  - replace (1 <? S n)%nat with true by (symmetry; apply Nat.ltb_lt; lia).
    simpl andb; cbv iota; field; exact HnR.
  - rewrite andb_false_r; ring.
Qed.

Lemma sphere_rows g :
  map (fun data_row => map Number data_row) (sphere_datapoints g)
  = map (fun h => record_of h (evaluate_sphere_parameters (total_height g / 2) h))
        (levels g).
Proof.
  unfold sphere_datapoints, levels; rewrite map_map.
  apply map_ext; intros h.
  destruct (evaluate_sphere_parameters (total_height g / 2) h) as [[v c] i].
  reflexivity.
Qed.

Lemma cylinder_rows g :
  map (fun data_row => map Number data_row) (cylinder_datapoints g)
  = map (fun h => record_of h (evaluate_cylinder_with_caps
                                 (total_height g) (radius g 0) h))
        (levels g).
Proof.
  unfold cylinder_datapoints, levels; rewrite map_map.
  replace (- total_height g / 2) with (- (total_height g / 2)) by field.
  apply map_ext; intros h.
  destruct (evaluate_cylinder_with_caps (total_height g) (radius g 0) h)
    as [[v c] i].
  reflexivity.
Qed.

Lemma levels_map g :
  levels g
  = map (fun i => - (total_height g / 2) + INR i * (total_height g / 24))
        (seq 0 25).
Proof.
  unfold levels, linspace; apply map_ext_in; intros i Hi.
  apply in_seq in Hi.
  replace (INR (25 - 1)) with 24 by (simpl; ring).
  destruct ((1 <? 25)%nat && (i =? 25 - 1)%nat) eqn:E.
  - apply andb_prop in E as [_ E]; apply Nat.eqb_eq in E; subst i.
    replace (INR (25 - 1)) with 24 by (simpl; ring); field.
  - field.
Qed.

Lemma levels_spec g :
  List.length (levels g) = 25%nat
  /\ nth 0 (levels g) 0 = - (total_height g / 2)
  /\ nth 24 (levels g) 0 = total_height g / 2.
Proof.
  split; [apply linspace_length|].
  rewrite levels_map; split.
  - simpl; ring.
  - rewrite nth_map_seq by lia.
    replace (INR 24) with 24 by (simpl; ring); field.
Qed.


(** The cylindrical oxidizer tank of the notebook (radius 0.0744, total
    height 0.8068): nothing at the bottom, the cylinder and the two
    hemispheres at the top. *)
Example oxidizer_tank_ends :
  evaluate_cylinder_with_caps (8068 / 10000) (744 / 10000) (- (8068 / 10000) / 2)
  = (0, 0, 0)
  /\ volume_of (evaluate_cylinder_with_caps (8068 / 10000) (744 / 10000)
                                            ((8068 / 10000) / 2))
     = PI * (744 / 10000) ^ 2 * (8068 / 10000 - 2 * (744 / 10000))
       + 4 / 3 * PI * (744 / 10000) ^ 3.
Proof.
  assert (Hv : valid (CylinderWithCaps (8068 / 10000) (744 / 10000)))
    by (simpl; lra).
  split.
  - apply (evaluate_empty (CylinderWithCaps (8068 / 10000) (744 / 10000)));
      simpl; lra.
  - pose proof (evaluate_full _ (8068 / 10000 / 2) Hv) as E.
    simpl in E; rewrite E by lra.
    apply (full_solid_Volume _ Hv).
Qed.

(** The cap formula also holds outside [-R, R] at the clamped level, as
    long as the drill reaches the top of the sphere. *)
Lemma sphere_volume_clamped R h :
  0 < R -> - 9 * R <= h ->
  volume_of (evaluate_sphere_parameters R h)
  = PI * (clamp h (- R) R + R) ^ 2 * (3 * R - (clamp h (- R) R + R)) / 3.
Proof.
  intros HR Hh.
  change (volume_of (evaluate (Sphere R) h)
          = PI * (clamp h (- R) R + R) ^ 2
            * (3 * R - (clamp h (- R) R + R)) / 3).
  rewrite evaluate_clamp by (simpl; lra).
  pose proof (clamp_range h (- R) R) as Hc.
  apply sphere_Volume; lra.
Qed.

(** ** The inertia the evaluators return *)

(** Any primitive of the polynomial computes its integral. *)
Lemma integral_unique p G a b :
  (forall z, derivable_pt_lim G z (peval p z)) ->
  integral p a b = G b - G a.
Proof.
  intros HG.
  assert (Hd : forall z, derivable_pt_lim
                 (fun x => peval (pprim p) x - G x) z ((fun _ => 0) z)).
  { intros z; replace 0 with (peval p z - peval p z) by ring.
    apply derivable_pt_lim_minus; [apply pprim_deriv | apply HG]. }
  unfold integral.
  destruct (Rtotal_order a b) as [Hab | [Hab | Hab]].
  - destruct (MVT_cor2 _ _ a b Hab (fun c _ => Hd c)) as [c [Hc _]]; lra.
  - subst b; ring.
  - destruct (MVT_cor2 _ _ b a Hab (fun c _ => Hd c)) as [c [Hc _]]; lra.
Qed.

Lemma integral_inertia_density c p a b :
  integral (inertia_density c p) a b
  = integral (inertia_density 0 p) a b
    - 2 * c * integral (pmul [0; 1] p) a b
    + c * c * integral p a b.
Proof.
  rewrite (integral_unique _
             (fun x => peval (pprim (inertia_density 0 p)) x
                       - 2 * c * peval (pprim (pmul [0; 1] p)) x
                       + c * c * peval (pprim p) x)).
  - unfold integral; ring.
  - intros z.
    replace (peval (inertia_density c p) z)
      with (peval (inertia_density 0 p) z
            - 2 * c * peval (pmul [0; 1] p) z
            + c * c * peval p z)
      by (rewrite !peval_inertia_density, peval_pmul; simpl; field).
    apply derivable_pt_lim_plus; [apply derivable_pt_lim_minus|].
    + apply pprim_deriv.
    + apply derivable_pt_lim_scal, pprim_deriv.
    + apply derivable_pt_lim_scal, pprim_deriv.
Qed.

Lemma sum_slabs_cons f a s : sum_slabs f (a :: s) = f a + sum_slabs f s.
Proof. reflexivity. Qed.

(** Parallel axes: the moment about the axis at height [c] from the moment
    about the axis through the origin. *)
Lemma inertia_xx_about_shift c s :
  inertia_xx_about c s
  = inertia_xx_about 0 s - 2 * c * moment_z s + c * c * Volume s.
Proof.
  unfold inertia_xx_about, moment_z, Volume.
  induction s as [|a s IH]; [simpl; ring|].
  rewrite !sum_slabs_cons, IH; unfold slab_integral.
  rewrite integral_inertia_density; ring.
Qed.

(** What the evaluators return as inertia is the moment about the axis
    through the origin. *)
Lemma inertia_about_origin s :
  matrixOfInertia_xx s + Volume s * centerOfMass_z s ^ 2
  = inertia_xx_about 0 s.
Proof.
  unfold matrixOfInertia_xx; rewrite inertia_xx_about_shift.
  unfold centerOfMass_z.
  destruct (Req_dec_T (Volume s) 0) as [E|N]; [ring|].
  field; exact N.
Qed.

Lemma returned_inertia_about_origin sh h :
  inertia_of (evaluate sh h) = inertia_xx_about 0 (level_solid sh h).
Proof. rewrite evaluate_eq; apply inertia_about_origin. Qed.

(** ** What the slabs stand for

    The kernel operations are defined on slabs.  Read height by height,
    the solids of the notebook are what the operations are meant to
    build: a union has the largest disc of its parts, and the cut with the
    drill empties the heights of the drill. *)

Lemma section_at_nonneg s z : 0 <= section_at s z.
Proof.
  induction s as [|a s IH]; simpl; [lra|].
  destruct (Rle_dec (lo a) z); [destruct (Rle_dec z (hi a))|]; try exact IH.
  apply Rle_trans with (1 := IH), Rmax_r.
Qed.

Lemma section_at_app s t z :
  section_at (s ++ t) z = Rmax (section_at s z) (section_at t z).
Proof.
  induction s as [|a s IH]; simpl.
  - rewrite Rmax_right; [reflexivity | apply section_at_nonneg].
  - destruct (Rle_dec (lo a) z); [destruct (Rle_dec z (hi a))|]; try exact IH.
    rewrite IH; apply Rmax_assoc.
Qed.

Lemma section_at_one a z :
  section_at [a] z
  = if Rle_dec (lo a) z
    then if Rle_dec z (hi a) then Rmax (radius2 a z) 0 else 0
    else 0.
Proof. reflexivity. Qed.

Lemma section_at_translate dz s z :
  section_at (translate dz s) z = section_at s (z - dz).
Proof.
  induction s as [|a s IH]; simpl; [reflexivity|].
  rewrite IH; unfold radius2; simpl; rewrite peval_pshift.
  destruct (Rle_dec (lo a + dz) z), (Rle_dec (lo a) (z - dz)); try lra;
    destruct (Rle_dec z (hi a + dz)), (Rle_dec (z - dz) (hi a)); try lra;
    reflexivity.
Qed.

(** A ball: R^2 - z^2 between the poles. *)
Lemma section_at_sphere r z :
  0 <= r ->
  section_at (sphere r) z
  = if Rle_dec (- r) z then if Rle_dec z r then r * r - z * z else 0 else 0.
Proof.
  intros Hr; unfold sphere; rewrite section_at_one; cbn [lo hi].
  destruct (Rle_dec (- r) z); [destruct (Rle_dec z r)|]; try reflexivity.
  unfold radius2; simpl; rewrite Rmax_left by nra; ring.
Qed.

Lemma section_at_cylinder h r z :
  section_at (cylinder h r) z
  = if Rle_dec (- (h / 2)) z then if Rle_dec z (h / 2) then r * r else 0 else 0.
Proof.
  unfold cylinder; rewrite section_at_one; cbn [lo hi].
  destruct (Rle_dec (- (h / 2)) z); [destruct (Rle_dec z (h / 2))|];
    try reflexivity.
  unfold radius2; simpl; rewrite Rmax_left by nra; ring.
Qed.

Lemma section_at_below a x z :
  lo a < hi a -> z <> x ->
  section_at (below a x) z = if Rlt_dec z x then section_at [a] z else 0.
Proof.
  intros Ha Hz; unfold below, Rmin.
  destruct (Rle_dec (hi a) x) as [Hx|Hx];
    destruct (Rlt_dec (lo a) _) as [H1|H1];
    rewrite ?section_at_one; cbn [lo hi section_at fold_right];
    unfold radius2; cbn [prof];
    destruct (Rlt_dec z x); destruct (Rle_dec (lo a) z);
    try destruct (Rle_dec z (hi a)); try destruct (Rle_dec z x);
    try reflexivity; lra.
Qed.

Lemma section_at_above a y z :
  lo a < hi a -> z <> y ->
  section_at (above a y) z = if Rlt_dec y z then section_at [a] z else 0.
Proof.
  intros Ha Hz; unfold above, Rmax.
  destruct (Rle_dec (lo a) y) as [Hy|Hy];
    destruct (Rlt_dec _ (hi a)) as [H1|H1];
    rewrite ?section_at_one; cbn [lo hi section_at fold_right];
    unfold radius2; cbn [prof];
    destruct (Rlt_dec y z); destruct (Rle_dec z (hi a));
    try destruct (Rle_dec (lo a) z); try destruct (Rle_dec y z);
    try reflexivity; lra.
Qed.

(** What a drill leaves of one slab. *)
Lemma section_at_carve a b z :
  lo a < hi a -> lo b < hi b ->
  (forall x, lo a <= x <= hi a -> radius2 a x <= radius2 b x) ->
  z <> lo b -> z <> hi b ->
  section_at (carve inside a [b]) z
  = if Rlt_dec (lo b) z
    then if Rlt_dec z (hi b) then 0 else section_at [a] z
    else section_at [a] z.
Proof.
  intros Ha Hb Hin Hz1 Hz2.
  pose proof (section_at_nonneg [a] z) as Hpos.
  rewrite carve_one; unfold inside.
  destruct (Rlt_dec (common_lo a b) (common_hi a b)) as [Hc|Hc].
  - destruct (Rle_dec _ _) as [_|Hn].
    + unfold clip_out.
      rewrite section_at_app, section_at_below, section_at_above by assumption.
      destruct (Rlt_dec z (lo b)), (Rlt_dec (hi b) z),
               (Rlt_dec (lo b) z), (Rlt_dec z (hi b)); try lra.
      * apply Rmax_left; lra.
      * apply Rmax_right; lra.
      * apply Rmax_left; lra.
    + exfalso; apply Hn, Hin.
      unfold common_mid, common_lo, common_hi, Rmax, Rmin in *.
      destruct (Rle_dec (lo a) (lo b)), (Rle_dec (hi a) (hi b)); lra.
  - destruct (Rlt_dec (lo b) z) as [H1|H1]; [|reflexivity].
    destruct (Rlt_dec z (hi b)) as [H2|H2]; [|reflexivity].
    rewrite section_at_one.
    unfold common_lo, common_hi, Rmax, Rmin in Hc.
    destruct (Rle_dec (lo a) z); [destruct (Rle_dec z (hi a))|];
      try reflexivity.
    exfalso.
    destruct (Rle_dec (lo a) (lo b)), (Rle_dec (hi a) (hi b)); lra.
Qed.

Lemma section_at_flat_map (k : slab -> solid) (f : R -> R) s z :
  (forall x, 0 <= x -> 0 <= f x) -> f 0 = 0 ->
  (forall x y, f (Rmax x y) = Rmax (f x) (f y)) ->
  (forall a, In a s -> section_at (k a) z = f (section_at [a] z)) ->
  section_at (flat_map k s) z = f (section_at s z).
Proof.
  intros Hpos H0 Hmax Hk.
  induction s as [|a s IH]; [symmetry; exact H0|].
  change (a :: s) with ([a] ++ s).
  rewrite flat_map_app, !section_at_app, Hmax, IH.
  - simpl flat_map; rewrite app_nil_r, Hk by (left; reflexivity); reflexivity.
  - intros b Hb; apply Hk; right; exact Hb.
Qed.

(** Cutting with the drill: nothing is left strictly between the level and
    the top of the drill, and the solid is untouched outside. *)
Lemma section_at_cut_drill zmin zmax r s D h z :
  0 < D -> Forall (fits zmin zmax (r * r)) s ->
  (forall a, In a s -> lo a < hi a) ->
  z <> h -> z <> h + D ->
  section_at (cut s (drill D r h)) z
  = if Rlt_dec h z
    then if Rlt_dec z (h + D) then 0 else section_at s z
    else section_at s z.
Proof.
  intros HD Hs Hprop Hz1 Hz2.
  unfold cut.
  apply (section_at_flat_map _
           (fun x => if Rlt_dec h z
                     then if Rlt_dec z (h + D) then 0 else x else x)).
  - intros x Hx; destruct (Rlt_dec h z); [destruct (Rlt_dec z (h + D))|]; lra.
  - destruct (Rlt_dec h z); [destruct (Rlt_dec z (h + D))|]; reflexivity.
  - intros x y; destruct (Rlt_dec h z); [destruct (Rlt_dec z (h + D))|];
      try reflexivity.
    symmetry; apply Rmax_left; lra.
  - intros a Ha.
    destruct (proj1 (Forall_forall _ _) Hs a Ha) as (_ & _ & _ & Hr).
    unfold drill, cylinder, translate; cbn [map].
    rewrite section_at_carve; cbn [lo hi prof]; try lra.
    + replace (- (D / 2) + (D / 2 + h)) with h by field.
      replace (D / 2 + (D / 2 + h)) with (h + D) by field.
      reflexivity.
    + apply Hprop, Ha.
    + intros x Hx; unfold radius2 at 2; cbn [prof].
      rewrite peval_pshift; simpl.
      apply Rle_trans with (r * r); [apply Hr, Hx | lra].
Qed.

Ltac split_decisions :=
  repeat match goal with
  | |- context [Rle_dec ?x ?y] =>
      destruct (Rle_dec x y); try (exfalso; lra)
  end.

Ltac rmax_cases :=
  repeat match goal with
  | |- context [Rmax ?x ?y] =>
      lazymatch x with
      | context [Rmax _ _] => fail
      | _ => lazymatch y with
             | context [Rmax _ _] => fail
             | _ => destruct (Rle_dec x y);
                    [ rewrite (Rmax_right x y) by assumption
                    | rewrite (Rmax_left x y) by lra ]
             end
      end
  end.

(** At every height the capped cylinder has the largest of the discs of the
    cylinder and of the two spheres. *)
Lemma section_at_capped_cylinder L r z :
  0 < r -> 2 * r <= L ->
  section_at (capped_cylinder L r) z
  = Rmax (section_at (cylinder (L - 2 * r) r) z)
         (Rmax (section_at (translate (L / 2 - r) (sphere r)) z)
               (section_at (translate (- L / 2 + r) (sphere r)) z)).
Proof.
  intros Hr [HL|HL].
  - rewrite capped_cylinder_slabs by assumption.
    rewrite section_at_cylinder, !section_at_translate, !section_at_sphere by lra.
    unfold section_at; cbn [fold_right lo hi]; unfold radius2; cbn [prof].
    rewrite !peval_pshift; cbn [peval].
    split_decisions; rmax_cases; try nra; apply Rle_antisym; nra.
  - subst L; rewrite capped_cylinder_sphere by assumption.
    rewrite section_at_cylinder, !section_at_translate, !section_at_sphere by lra.
    unfold section_at; cbn [fold_right lo hi]; unfold radius2; cbn [prof].
    rewrite !peval_pshift; cbn [peval].
    split_decisions; rmax_cases; try nra; apply Rle_antisym; nra.
Qed.

Lemma section_at_level_solid sh h z :
  valid sh ->
  (forall a, In a (full_solid sh) -> lo a < hi a) ->
  z <> h -> z <> h + reach sh ->
  section_at (level_solid sh h) z
  = if Rlt_dec h z
    then if Rlt_dec z (h + reach sh) then 0 else section_at (full_solid sh) z
    else section_at (full_solid sh) z.
Proof.
  intros Hv Hp Hz1 Hz2; unfold level_solid.
  pose proof (reach_pos sh Hv) as [Hpos Hr].
  apply (section_at_cut_drill (- half_height sh) (half_height sh));
    try assumption; [lra | apply fits_full_solid, Hv].
Qed.

End ShapeFacts.

(** ** Levels, closed forms and the rows of the tables *)

Module LevelFacts.
Import Poly PolyFacts Cq Np Notebook Geom CqFacts ShapeFacts.

(** A polynomial that is positive inside [a, b], a < b, has a positive
    integral there. *)
Lemma integral_pos p a b :
  a < b -> (forall z, a < z < b -> 0 < peval p z) -> 0 < integral p a b.
Proof.
  intros Hab Hp.
  destruct (MVT_cor2 (peval (pprim p)) (peval p) a b Hab) as [c [Hc Hin]].
  - intros x _; apply pprim_deriv.
  - unfold integral; rewrite Hc.
    apply Rmult_lt_0_compat; [apply Hp; exact Hin | lra].
Qed.

Lemma sum_slabs_lt f g s a :
  In a s -> f a < g a -> (forall b, In b s -> f b <= g b) ->
  sum_slabs f s < sum_slabs g s.
Proof.
  induction s as [|b s IH]; intros Hin Hlt Hle; [contradiction|].
  rewrite !sum_slabs_cons.
  destruct Hin as [->|Hin].
  - assert (sum_slabs f s <= sum_slabs g s)
      by (apply sum_slabs_le; intros c Hc; apply Hle; right; exact Hc).
    lra.
  - assert (f b <= g b) by (apply Hle; left; reflexivity).
    assert (sum_slabs f s < sum_slabs g s)
      by (apply IH; [exact Hin | exact Hlt |];
          intros c Hc; apply Hle; right; exact Hc).
    lra.
Qed.

(** The volume below a level inside the valid range, slab by slab. *)
Lemma level_Volume sh h :
  valid sh -> half_height sh <= h + reach sh ->
  Volume (level_solid sh h)
  = sum_slabs (fun a => PI * integral (prof a) (lo a) (clamp h (lo a) (hi a)))
              (full_solid sh).
Proof.
  intros Hv Hreach; unfold Volume; rewrite level_measure by exact Hv.
  apply sum_slabs_ext; intros a Ha.
  destruct (proj1 (Forall_forall _ _) (fits_full_solid sh Hv) a Ha)
    as (Hle & Hlo & Hhi & _).
  apply filled_below_only; lra.
Qed.

Lemma level_slab_mono sh a h1 h2 :
  valid sh -> In a (full_solid sh) -> h1 <= h2 ->
  PI * integral (prof a) (lo a) (clamp h1 (lo a) (hi a))
  <= PI * integral (prof a) (lo a) (clamp h2 (lo a) (hi a)).
Proof.
  intros Hv Ha Hh.
  destruct (proj1 (Forall_forall _ _) (fits_full_solid sh Hv) a Ha)
    as (Hle & Hlo & Hhi & Hr).
  pose proof (clamp_range h1 _ _ Hle) as H1.
  pose proof (clamp_range h2 _ _ Hle) as H2.
  pose proof (clamp_mono h1 h2 (lo a) (hi a) Hh) as H12.
  rewrite (integral_chasles _ (lo a) (clamp h1 (lo a) (hi a))
                            (clamp h2 (lo a) (hi a))).
  assert (0 <= integral (prof a) (clamp h1 (lo a) (hi a))
                        (clamp h2 (lo a) (hi a))).
  { apply integral_nonneg; [exact H12|].
    intros z Hz; apply Hr; lra. }
  pose proof PI_RGT_0; nra.
Qed.

(** The volume grows strictly between two levels of the valid range as soon
    as one slab has heights strictly between them where its disc is not a
    point. *)
Lemma level_Volume_lt sh a h1 h2 :
  valid sh -> In a (full_solid sh) ->
  half_height sh <= h1 + reach sh -> h1 <= h2 ->
  clamp h1 (lo a) (hi a) < clamp h2 (lo a) (hi a) ->
  (forall z, lo a < z < hi a -> 0 < radius2 a z) ->
  Volume (level_solid sh h1) < Volume (level_solid sh h2).
Proof.
  intros Hv Ha Hreach Hh Hc Hp.
  rewrite !level_Volume by (try exact Hv; lra).
  apply (sum_slabs_lt _ _ _ a Ha).
  - destruct (proj1 (Forall_forall _ _) (fits_full_solid sh Hv) a Ha)
      as (Hle & _).
    pose proof (clamp_range h1 _ _ Hle) as H1.
    pose proof (clamp_range h2 _ _ Hle) as H2.
    rewrite (integral_chasles _ (lo a) (clamp h1 (lo a) (hi a))
                              (clamp h2 (lo a) (hi a))).
    assert (0 < integral (prof a) (clamp h1 (lo a) (hi a))
                         (clamp h2 (lo a) (hi a))).
    { apply integral_pos; [exact Hc|].
      intros z Hz; apply Hp; lra. }
    pose proof PI_RGT_0; nra.
  - intros b Hb; apply (level_slab_mono sh b h1 h2 Hv Hb Hh).
Qed.

Lemma level_Volume_strict sh h1 h2 :
  valid sh -> - half_height sh <= h1 -> h1 < h2 -> h2 <= half_height sh ->
  Volume (level_solid sh h1) < Volume (level_solid sh h2).
Proof.
  intros Hv H1 H12 H2.
  pose proof (reach_pos sh Hv) as [Hpos Hr].
  destruct sh as [R|L r]; simpl in Hv, H1, H2, Hpos, Hr.
  - apply (level_Volume_lt (Sphere R) (mkSlab (- R) R [R * R; 0; -1]));
      cbn [half_height reach lo hi valid full_solid]; try lra;
        [left; reflexivity | |].
    + rewrite !clamp_in by lra; exact H12.
    + unfold radius2; simpl; intros z Hz; nra.
  - destruct Hv as [Hr0 [HL|HL]].
    + assert (Hv : valid (CylinderWithCaps L r)) by (simpl; lra).
      pose proof (capped_cylinder_slabs L r Hr0 HL) as Hs.
      destruct (Rlt_dec h1 (- ((L - 2 * r) / 2))) as [Hb|Hb];
        [|destruct (Rlt_dec h1 ((L - 2 * r) / 2)) as [Hc|Hc]].
      * apply (level_Volume_lt (CylinderWithCaps L r)
                 (mkSlab (- r + (- L / 2 + r)) (- ((L - 2 * r) / 2))
                         (pshift (- L / 2 + r) [r * r; 0; -1])));
          cbn [half_height reach lo hi valid full_solid]; try lra;
          [rewrite Hs; simpl; tauto | |].
        -- rewrite (clamp_in h1) by lra.
           destruct (Rle_dec h2 (- ((L - 2 * r) / 2))).
           ++ rewrite clamp_in by lra; exact H12.
           ++ rewrite clamp_above by lra; exact Hb.
        -- unfold radius2; cbn [prof]; intros z Hz.
           rewrite peval_pshift; simpl; nra.
      * apply (level_Volume_lt (CylinderWithCaps L r)
                 (mkSlab (- ((L - 2 * r) / 2)) ((L - 2 * r) / 2) [r * r]));
          cbn [half_height reach lo hi valid full_solid]; try lra;
          [rewrite Hs; simpl; tauto | |].
        -- rewrite (clamp_in h1) by lra.
           destruct (Rle_dec h2 ((L - 2 * r) / 2)).
           ++ rewrite clamp_in by lra; exact H12.
           ++ rewrite clamp_above by lra; exact Hc.
        -- unfold radius2; simpl; intros z Hz; nra.
      * apply (level_Volume_lt (CylinderWithCaps L r)
                 (mkSlab ((L - 2 * r) / 2) (r + (L / 2 - r))
                         (pshift (L / 2 - r) [r * r; 0; -1])));
          cbn [half_height reach lo hi valid full_solid]; try lra;
          [rewrite Hs; simpl; tauto | |].
        -- rewrite !clamp_in by lra; exact H12.
        -- unfold radius2; cbn [prof]; intros z Hz.
           rewrite peval_pshift; simpl; nra.
    + subst L.
      pose proof (capped_cylinder_sphere r Hr0) as Hs.
      apply (level_Volume_lt (CylinderWithCaps (2 * r) r)
               (mkSlab (- r + (2 * r / 2 - r)) (r + (2 * r / 2 - r))
                       (pshift (2 * r / 2 - r) [r * r; 0; -1])));
        cbn [half_height reach lo hi valid full_solid]; try lra;
          [rewrite Hs; simpl; tauto | |].
      * rewrite !clamp_in by lra; exact H12.
      * unfold radius2; cbn [prof]; intros z Hz.
        rewrite peval_pshift; simpl; nra.
Qed.

(** Whatever the level, the region left is part of the full shape. *)
Lemma level_Volume_le_full sh h :
  valid sh -> Volume (level_solid sh h) <= Volume (full_solid sh).
Proof.
  intros Hv; unfold Volume at 1; rewrite level_measure by exact Hv.
  pose proof (reach_pos sh Hv) as [Hpos Hr].
  apply sum_slabs_le; intros a Ha.
  destruct (proj1 (Forall_forall _ _) (fits_full_solid sh Hv) a Ha)
    as (Hle & Hlo & Hhi & Hrad).
  unfold filled, slab_integral.
  pose proof (clamp_range h _ _ Hle) as H1.
  pose proof (clamp_range (h + reach sh) _ _ Hle) as H2.
  assert (H12 : clamp h (lo a) (hi a) <= clamp (h + reach sh) (lo a) (hi a))
    by (apply clamp_mono; lra).
  rewrite (integral_chasles (prof a) (lo a) (clamp h (lo a) (hi a)) (hi a)).
  rewrite (integral_chasles (prof a) (clamp h (lo a) (hi a))
                            (clamp (h + reach sh) (lo a) (hi a)) (hi a)).
  assert (0 <= integral (prof a) (clamp h (lo a) (hi a))
                        (clamp (h + reach sh) (lo a) (hi a))).
  { apply integral_nonneg; [exact H12|].
    intros z Hz; apply Hrad; lra. }
  pose proof PI_RGT_0; nra.
Qed.

(** At or below the bottom, what is left is what lies above the top of the
    drill. *)
Lemma level_Volume_below_bottom sh h :
  valid sh -> h <= - half_height sh ->
  Volume (level_solid sh h)
  + Volume (level_solid sh (clamp (h + reach sh) (- half_height sh)
                                  (half_height sh)))
  = Volume (full_solid sh).
Proof.
  intros Hv Hh.
  pose proof (reach_pos sh Hv) as [Hpos Hr].
  pose proof (clamp_range (h + reach sh) (- half_height sh) (half_height sh))
    as Hc.
  rewrite (level_Volume sh (clamp _ _ _)) by (try exact Hv; lra).
  unfold Volume; rewrite level_measure by exact Hv.
  induction (fits_full_solid sh Hv) as [|a s Ha _ IH];
    [simpl; ring|].
  rewrite !sum_slabs_cons.
  destruct Ha as (Hle & Hlo & Hhi & _).
  unfold filled at 1, slab_integral at 1.
  rewrite clamp_clamp by lra.
  rewrite (clamp_below h) by lra.
  rewrite integral_same.
  rewrite (integral_chasles (prof a) (lo a)
             (clamp (h + reach sh) (lo a) (hi a)) (hi a)).
  lra.
Qed.

(** Integral of (k0 + k1 z) p from the volume and first-moment integrals. *)
Lemma integral_affine k0 k1 p a b :
  integral (pmul [k0; k1] p) a b
  = k0 * integral p a b + k1 * integral (pmul [0; 1] p) a b.
Proof.
  rewrite (integral_unique _
             (fun x => k0 * peval (pprim p) x
                       + k1 * peval (pprim (pmul [0; 1] p)) x)).
  - unfold integral; ring.
  - intros z.
    replace (peval (pmul [k0; k1] p) z)
      with (k0 * peval p z + k1 * peval (pmul [0; 1] p) z)
      by (rewrite !peval_pmul; simpl; ring).
    apply derivable_pt_lim_plus;
      apply derivable_pt_lim_scal, pprim_deriv.
Qed.

Lemma level_affine_moment sh h k0 k1 :
  valid sh -> half_height sh <= h + reach sh ->
  k0 * Volume (level_solid sh h) + k1 * moment_z (level_solid sh h)
  = sum_slabs (fun a => PI * integral (pmul [k0; k1] (prof a)) (lo a)
                                      (clamp h (lo a) (hi a)))
              (full_solid sh).
Proof.
  intros Hv Hreach; unfold Volume, moment_z.
  rewrite !level_measure by exact Hv.
  induction (fits_full_solid sh Hv) as [|a s Ha _ IH]; [simpl; ring|].
  rewrite !sum_slabs_cons, <- IH.
  destruct Ha as (Hle & Hlo & Hhi & _).
  rewrite !filled_below_only by lra.
  cbv beta; rewrite (integral_affine k0 k1); ring.
Qed.

(** Within the reach of the drill the solid the evaluators measure is the
    filled region: every integral over it is the integral over the part of
    the full shape at or below the level. *)
Lemma level_filled_integral g sh h :
  valid sh -> half_height sh <= h + reach sh ->
  sum_slabs (slab_integral g) (level_solid sh h) = filled_integral g sh h.
Proof.
  intros Hv Hreach; rewrite level_measure by exact Hv.
  apply sum_slabs_ext; intros a Ha.
  destruct (proj1 (Forall_forall _ _) (fits_full_solid sh Hv) a Ha)
    as (Hle & Hlo & Hhi & _).
  apply filled_below_only; lra.
Qed.

Lemma level_filled_centroid sh h :
  valid sh -> half_height sh <= h + reach sh ->
  centerOfMass_z (level_solid sh h) = filled_centroid sh h.
Proof.
  intros Hv Hreach; unfold centerOfMass_z, filled_centroid.
  unfold Volume, moment_z, filled_volume, filled_moment.
  rewrite !level_filled_integral by assumption; reflexivity.
Qed.

Lemma level_filled_central_moment sh h :
  valid sh -> half_height sh <= h + reach sh ->
  matrixOfInertia_xx (level_solid sh h) = filled_central_moment sh h.
Proof.
  intros Hv Hreach; unfold matrixOfInertia_xx, inertia_xx_about.
  rewrite level_filled_integral, level_filled_centroid by assumption.
  reflexivity.
Qed.

(** The integrand y^2 + (z - c)^2 is a sum of squares. *)
Lemma filled_central_moment_nonneg sh h :
  valid sh -> 0 <= filled_central_moment sh h.
Proof.
  intros Hv; unfold filled_central_moment, filled_integral.
  apply sum_slabs_nonneg; intros a Ha.
  destruct (proj1 (Forall_forall _ _) (fits_full_solid sh Hv) a Ha)
    as (Hle & _ & _ & Hr).
  pose proof (clamp_range h _ _ Hle) as Hc.
  apply Rmult_le_pos; [left; apply PI_RGT_0|].
  apply integral_nonneg; [lra|].
  intros z Hz.
  change (central_density (filled_centroid sh h) (prof a))
    with (inertia_density (filled_centroid sh h) (prof a)).
  rewrite peval_inertia_density.
  assert (Hp : 0 <= peval (prof a) z) by (apply Hr; lra).
  set (c := filled_centroid sh h).
  assert (0 <= (z - c) * (z - c)) by apply Rle_0_sqr.
  assert (0 <= peval (prof a) z * ((z - c) * (z - c)))
    by (apply Rmult_le_pos; assumption).
  assert (0 <= peval (prof a) z * peval (prof a) z)
    by (apply Rmult_le_pos; assumption).
  lra.
Qed.

(** Nothing of the shape lies at or below a level under its bottom. *)
Lemma filled_integral_below_bottom g sh h :
  valid sh -> h <= - half_height sh -> filled_integral g sh h = 0.
Proof.
  intros Hv Hh; unfold filled_integral.
  induction (fits_full_solid sh Hv) as [|a s Ha _ IH]; [reflexivity|].
  rewrite sum_slabs_cons, IH.
  destruct Ha as (Hle & Hlo & Hhi & _).
  rewrite clamp_below, integral_same by lra; ring.
Qed.

Lemma sphere_filled_integral g R h :
  0 <= R -> - R <= h <= R ->
  filled_integral g (Sphere R) h
  = PI * integral (g [R * R; 0; -1]) (- R) h.
Proof.
  intros HR Hh; unfold filled_integral, full_solid, sphere, sum_slabs.
  cbn [map fold_right lo hi prof].
  rewrite clamp_in by lra; ring.
Qed.

(** The half ball of radius 1: volume 2 pi / 3, centroid 3/8 below the
    centre, central moment of inertia 83 pi / 480 (83/320 of mass times
    squared radius). *)
Example unit_half_ball_central_moment :
  filled_volume (Sphere 1) 0 = 2 / 3 * PI
  /\ filled_centroid (Sphere 1) 0 = - (3 / 8)
  /\ filled_central_moment (Sphere 1) 0 = 83 / 480 * PI.
Proof.
  assert (HV : filled_volume (Sphere 1) 0 = 2 / 3 * PI).
  { unfold filled_volume; rewrite sphere_filled_integral by lra.
    unfold integral; simpl; field. }
  assert (HM : filled_moment (Sphere 1) 0 = - (1 / 4) * PI).
  { unfold filled_moment; rewrite sphere_filled_integral by lra.
    unfold integral; simpl; field. }
  assert (HC : filled_centroid (Sphere 1) 0 = - (3 / 8)).
  { unfold filled_centroid; rewrite HV, HM.
    pose proof PI_RGT_0.
    destruct (Req_dec_T (2 / 3 * PI) 0) as [E|N]; [lra | field; lra]. }
  split; [exact HV|]; split; [exact HC|].
  unfold filled_central_moment; rewrite HC, sphere_filled_integral by lra.
  unfold integral; simpl; field.
Qed.

Lemma full_solid_moment sh : valid sh -> moment_z (full_solid sh) = 0.
Proof.
  destruct sh as [R|L r]; simpl; intros Hv.
  - unfold moment_z, sum_slabs, slab_integral, integral; simpl; field.
  - apply capped_cylinder_moment_z; lra.
Qed.

(** The first moment of the region filled up to a level of the valid range
    is never positive: the region has at least as much below the centre as
    above. *)
Lemma level_moment_nonpos sh h :
  valid sh -> - half_height sh <= h -> h <= half_height sh ->
  moment_z (level_solid sh h) <= 0.
Proof.
  intros Hv H1 H2.
  pose proof (reach_pos sh Hv) as [Hpos Hr].
  destruct (Rle_dec h 0) as [Hh|Hh].
  - assert (E : 0 <= 0 * Volume (level_solid sh h)
                     + (- 1) * moment_z (level_solid sh h)); [|lra].
    rewrite level_affine_moment by (try exact Hv; lra).
    apply sum_slabs_nonneg; intros a Ha.
    destruct (proj1 (Forall_forall _ _) (fits_full_solid sh Hv) a Ha)
      as (Hle & Hlo & Hhi & Hrad).
    pose proof (clamp_range h _ _ Hle) as Hc.
    apply Rmult_le_pos; [left; apply PI_RGT_0|].
    destruct (Rle_dec h (lo a)) as [Hhl|Hhl].
    + rewrite clamp_below, integral_same by lra; lra.
    + assert (Hch : clamp h (lo a) (hi a) <= h).
      { unfold clamp; apply Rmax_lub; [lra | apply Rmin_r]. }
      apply integral_nonneg; [lra|].
      intros z Hz; rewrite peval_pmul; simpl.
      apply Rmult_le_pos; [lra | apply Hrad; lra].
  - rewrite <- (full_solid_moment sh Hv).
    unfold moment_z; rewrite level_filled_integral by (try exact Hv; lra).
    unfold filled_integral.
    apply sum_slabs_le; intros a Ha.
    destruct (proj1 (Forall_forall _ _) (fits_full_solid sh Hv) a Ha)
      as (Hle & Hlo & Hhi & Hrad).
    pose proof (clamp_range h _ _ Hle) as Hc.
    unfold slab_integral.
    rewrite (integral_chasles _ (lo a) (clamp h (lo a) (hi a)) (hi a)).
    assert (0 <= integral (pmul [0; 1] (prof a)) (clamp h (lo a) (hi a)) (hi a)).
    { destruct (Rle_dec (hi a) h) as [Hhh|Hhh].
      - rewrite clamp_above, integral_same by lra; lra.
      - assert (Hch : h <= clamp h (lo a) (hi a)).
        { unfold clamp; apply Rle_trans with (Rmin (hi a) h);
            [rewrite Rmin_right by lra; lra | apply Rmax_r]. }
        apply integral_nonneg; [lra|].
        intros z Hz; rewrite peval_pmul; simpl.
        apply Rmult_le_pos; [lra | apply Hrad; lra]. }
    pose proof PI_RGT_0; nra.
Qed.

(** The centroid of the region filled up to a level of the valid range lies
    between the bottom of the shape and its centre. *)
Lemma level_centerOfMass_range sh h :
  valid sh -> - half_height sh <= h -> h <= half_height sh ->
  - half_height sh <= centerOfMass_z (level_solid sh h) <= 0.
Proof.
  intros Hv H1 H2.
  pose proof (reach_pos sh Hv) as [Hpos Hr].
  assert (HV : 0 <= Volume (level_solid sh h))
    by (eapply Volume_nonneg, fits_level_solid, Hv).
  pose proof (level_moment_nonpos sh h Hv H1 H2) as HM.
  assert (Hlow : 0 <= half_height sh * Volume (level_solid sh h)
                      + 1 * moment_z (level_solid sh h)).
  { rewrite level_affine_moment by (try exact Hv; lra).
    apply sum_slabs_nonneg; intros a Ha.
    destruct (proj1 (Forall_forall _ _) (fits_full_solid sh Hv) a Ha)
      as (Hle & Hlo & Hhi & Hrad).
    pose proof (clamp_range h _ _ Hle) as Hc.
    apply Rmult_le_pos; [left; apply PI_RGT_0|].
    apply integral_nonneg; [lra|].
    intros z Hz; rewrite peval_pmul; simpl.
    apply Rmult_le_pos; [lra | apply Hrad; lra]. }
  unfold centerOfMass_z.
  destruct (Req_dec_T (Volume (level_solid sh h)) 0) as [E|N]; [lra|].
  assert (HVp : 0 < Volume (level_solid sh h)) by lra.
  split.
  - apply Rmult_le_reg_r with (Volume (level_solid sh h)); [exact HVp|].
    unfold Rdiv; rewrite Rmult_assoc, Rinv_l by lra; lra.
  - apply Rmult_le_reg_r with (Volume (level_solid sh h)); [exact HVp|].
    unfold Rdiv; rewrite Rmult_assoc, Rinv_l by lra; lra.
Qed.

Lemma sphere_inertia R h :
  0 <= R -> - R <= h <= R ->
  inertia_xx_about 0 (level_solid (Sphere R) h)
  = PI * (R ^ 4 * (h + R) / 4 + R ^ 2 * (h ^ 3 + R ^ 3) / 6
          - 3 * (h ^ 5 + R ^ 5) / 20).
Proof.
  intros HR Hh.
  unfold inertia_xx_about, level_solid, full_solid, reach, max_radius.
  rewrite sphere_measure by exact HR.
  rewrite clamp_in, clamp_above by lra.
  unfold integral; simpl; field.
Qed.

Lemma capped_cylinder_inertia L r :
  0 < r -> 2 * r <= L ->
  inertia_xx_about 0 (capped_cylinder L r)
  = let c := L / 2 - r in
    PI * (3 / 2 * c * r ^ 4 + 2 / 3 * r ^ 2 * c ^ 3 + 8 / 15 * r ^ 5
          + 4 / 3 * c ^ 2 * r ^ 3).
Proof.
  intros Hr [HL|HL].
  - rewrite capped_cylinder_slabs by assumption.
    unfold inertia_xx_about, sum_slabs, slab_integral, integral; simpl; field.
  - subst L; rewrite capped_cylinder_sphere by assumption.
    unfold inertia_xx_about, sum_slabs, slab_integral, integral; simpl; field.
Qed.

Lemma capped_cylinder_level_Volume L r h :
  0 < r -> 2 * r <= L -> - (L / 2) <= h <= L / 2 ->
  Volume (level_solid (CylinderWithCaps L r) h) = capsule_volume L r h.
Proof.
  intros Hr HL Hh.
  assert (Hv : valid (CylinderWithCaps L r)) by (simpl; lra).
  rewrite level_Volume by (try exact Hv; simpl; lra).
  unfold capsule_volume, cap_volume; cbn [full_solid].
  destruct HL as [HL|HL].
  - rewrite capped_cylinder_slabs by assumption.
    unfold sum_slabs; cbn [fold_right lo hi prof].
    destruct (Rle_dec h (- (L / 2 - r))) as [H1|H1];
      [|destruct (Rle_dec h (L / 2 - r)) as [H2|H2]].
    + rewrite (clamp_below h (- ((L - 2 * r) / 2))),
        (clamp_below h ((L - 2 * r) / 2)), (clamp_in h) by lra.
      unfold integral; simpl; field.
    + rewrite (clamp_in h (- ((L - 2 * r) / 2))),
        (clamp_below h ((L - 2 * r) / 2)), (clamp_above h) by lra.
      unfold integral; simpl; field.
    + rewrite (clamp_above h (- ((L - 2 * r) / 2))),
        (clamp_in h ((L - 2 * r) / 2)), (clamp_above h) by lra.
      unfold integral; simpl; field.
  - subst L; rewrite capped_cylinder_sphere by assumption.
    unfold sum_slabs; cbn [fold_right lo hi prof].
    rewrite (clamp_in h (- r + _)) by lra.
    destruct (Rle_dec h (- (2 * r / 2 - r))) as [H1|H1];
      [|destruct (Rle_dec h (2 * r / 2 - r)) as [H2|H2]].
    + rewrite (clamp_below h) by lra. unfold integral; simpl; field.
    + exfalso; lra.
    + rewrite (clamp_above h) by lra. unfold integral; simpl; field.
Qed.

Lemma capsule_volume_symmetry L r h :
  2 * r <= L ->
  capsule_volume L r h + capsule_volume L r (- h)
  = PI * r ^ 2 * (L - 2 * r) + 4 / 3 * PI * r ^ 3.
Proof.
  intros HL; unfold capsule_volume, cap_volume; cbv zeta.
  destruct (Rle_dec h (- (L / 2 - r))) as [H1|H1];
    destruct (Rle_dec h (L / 2 - r)) as [H2|H2];
    destruct (Rle_dec (- h) (- (L / 2 - r))) as [H3|H3];
    destruct (Rle_dec (- h) (L / 2 - r)) as [H4|H4];
    try (exfalso; lra); try field.
  all: try (assert (E0 : h = 0) by lra; assert (EL : L = 2 * r) by lra;
            rewrite E0, EL; field).
  all: try (assert (E : h = L / 2 - r) by lra; rewrite E; field).
  all: try (assert (E : h = - (L / 2 - r)) by lra; rewrite E; field).
Qed.

Lemma nth_levels g i : (i < 25)%nat -> nth i (levels g) 0 = level_at g i.
Proof. intros Hi; rewrite levels_map, nth_map_seq by exact Hi; reflexivity. Qed.

Lemma nth_map_default {A B} (f : A -> B) l i d d' :
  (i < List.length l)%nat -> nth i (map f l) d = f (nth i l d').
Proof.
  intros Hi; rewrite (nth_indep _ d (f d')) by (rewrite length_map; exact Hi).
  apply map_nth.
Qed.

Lemma sphere_datapoint g i :
  (i < 25)%nat ->
  nth i (sphere_datapoints g) []
  = let r := evaluate_sphere_parameters (total_height g / 2) (level_at g i) in
    [level_at g i; volume_of r; center_of_mass_of r; inertia_of r].
Proof.
  intros Hi; unfold sphere_datapoints; cbv zeta.
  fold (levels g).
  rewrite (nth_map_default _ _ _ _ 0) by (rewrite (proj1 (levels_spec g)); exact Hi).
  rewrite nth_levels by exact Hi.
  destruct (evaluate_sphere_parameters (total_height g / 2) (level_at g i))
    as [[v c] n]; reflexivity.
Qed.

Lemma cylinder_datapoint g i :
  (i < 25)%nat ->
  nth i (cylinder_datapoints g) []
  = let r := evaluate_cylinder_with_caps (total_height g) (radius g 0)
                                         (level_at g i) in
    [level_at g i; volume_of r; center_of_mass_of r; inertia_of r].
Proof.
  intros Hi; unfold cylinder_datapoints; cbv zeta.
  replace (- total_height g / 2) with (- (total_height g / 2)) by field.
  fold (levels g).
  rewrite (nth_map_default _ _ _ _ 0) by (rewrite (proj1 (levels_spec g)); exact Hi).
  rewrite nth_levels by exact Hi.
  destruct (evaluate_cylinder_with_caps (total_height g) (radius g 0)
                                        (level_at g i))
    as [[v c] n]; reflexivity.
Qed.

Lemma level_at_range g i :
  0 < total_height g -> (i <= 24)%nat ->
  - (total_height g / 2) <= level_at g i <= total_height g / 2.
Proof.
  intros HH Hi; unfold level_at.
  assert (0 <= INR i) by apply pos_INR.
  assert (INR i <= 24).
  { replace 24 with (INR 24) by (simpl; ring). apply le_INR; exact Hi. }
  split; nra.
Qed.

Lemma level_at_lt g i j :
  0 < total_height g -> (i < j)%nat -> level_at g i < level_at g j.
Proof.
  intros HH Hij; unfold level_at.
  apply lt_INR in Hij; nra.
Qed.

Lemma evaluate_volume_lt sh h1 h2 :
  valid sh -> - half_height sh <= h1 -> h1 < h2 -> h2 <= half_height sh ->
  volume_of (evaluate sh h1) < volume_of (evaluate sh h2).
Proof.
  intros Hv H1 H12 H2; rewrite !evaluate_eq; unfold volume_of; cbn [fst].
  apply level_Volume_strict; assumption.
Qed.

Lemma level_at_0 g : level_at g 0 = - (total_height g / 2).
Proof. unfold level_at; simpl; ring. Qed.

Lemma level_at_24 g : level_at g 24 = total_height g / 2.
Proof.
  unfold level_at; replace (INR 24) with 24 by (simpl; ring); field.
Qed.

Lemma sphere_full_inertia R :
  inertia_xx_about 0 (sphere R) = 8 / 15 * PI * R ^ 5.
Proof.
  unfold inertia_xx_about, sphere, sum_slabs, slab_integral, integral.
  simpl; field.
Qed.

End LevelFacts.

(** * The claims *)

Import Poly PolyFacts Cq Np Notebook Geom TankShape CqFacts ShapeFacts.

(** C1.  For a sphere of radius R and a level h in [-R, R] the returned
    volume is the volume of the spherical cap of height ch = h + R:
    pi * ch^2 * (3 R - ch) / 3. *)
Theorem sphere_volume_cap_formula R h :
  0 < R -> - R <= h <= R ->
  let ch := h + R in
  volume_of (evaluate_sphere_parameters R h) = PI * ch ^ 2 * (3 * R - ch) / 3.
Proof.
  intros HR Hh ch; subst ch.
  change (Volume (cut (sphere R) (drill (10 * R) R h))
          = PI * (h + R) ^ 2 * (3 * R - (h + R)) / 3).
  apply sphere_Volume; lra.
Qed.

Lemma sphere_volume_cap_formula_witness :
  volume_of (evaluate_sphere_parameters 2 1)
  = PI * (1 + 2) ^ 2 * (3 * 2 - (1 + 2)) / 3.
Proof. apply (sphere_volume_cap_formula 2 1); lra. Defined.

(** C2, at a level the claim covers and the code gets wrong.  For the sphere
    of radius 1 and the level -12 nothing of the sphere lies at or below the
    level, so the filled region is empty and its central moment of inertia
    is 0; the drill spans the heights -12 to -2 and misses the sphere, so
    the returned inertia minus volume times the square of the returned
    centroid is the central moment of the full sphere, 8 pi / 15. *)
Theorem central_moment_level_below_drill :
  let r := evaluate_sphere_parameters 1 (-12) in
  filled_central_moment (Sphere 1) (-12) = 0
  /\ inertia_of r - volume_of r * center_of_mass_of r ^ 2 = 8 / 15 * PI
  /\ inertia_of r - volume_of r * center_of_mass_of r ^ 2
     <> filled_central_moment (Sphere 1) (-12).
Proof.
  intros r; subst r.
  assert (Hv : valid (Sphere 1)) by (simpl; lra).
  assert (Hout : evaluate (Sphere 1) (-12)
                 = (Volume (full_solid (Sphere 1)), 0,
                    inertia_xx_about 0 (full_solid (Sphere 1))))
    by (apply evaluate_out_of_reach; simpl; lra).
  assert (Hf : filled_central_moment (Sphere 1) (-12) = 0)
    by (apply LevelFacts.filled_integral_below_bottom; simpl; lra).
  assert (Hc : inertia_of (evaluate_sphere_parameters 1 (-12))
               - volume_of (evaluate_sphere_parameters 1 (-12))
                 * center_of_mass_of (evaluate_sphere_parameters 1 (-12)) ^ 2
               = 8 / 15 * PI).
  { change (evaluate_sphere_parameters 1 (-12))
      with (evaluate (Sphere 1) (-12)).
    rewrite Hout; unfold inertia_of, volume_of, center_of_mass_of.
    cbn [fst snd full_solid].
    rewrite LevelFacts.sphere_full_inertia; ring. }
  split; [exact Hf|]; split; [exact Hc|].
  rewrite Hc, Hf; pose proof PI_RGT_0; lra.
Qed.

(** C3.  For every valid shape the returned volume does not decrease when
    the level rises within the valid range. *)
Theorem volume_monotone sh h1 h2 :
  valid sh -> - half_height sh <= h1 -> h1 <= h2 -> h2 <= half_height sh ->
  volume_of (evaluate sh h1) <= volume_of (evaluate sh h2).
Proof.
  intros Hv H1 H12 H2; rewrite !evaluate_eq; unfold volume_of; cbn [fst].
  pose proof (reach_pos sh Hv) as [Hpos Hr].
  apply (volume_cut_mono (- half_height sh) (half_height sh)); try lra.
  apply fits_full_solid, Hv.
Qed.

Lemma volume_monotone_witness :
  volume_of (evaluate (CylinderWithCaps 4 1) (-1))
  <= volume_of (evaluate (CylinderWithCaps 4 1) 1).
Proof. apply volume_monotone; simpl; lra. Defined.

(** C4, at a level the claim covers and the code gets wrong.  For the capped
    cylinder of total length 4 and radius 1 the level -42 lies below the
    bottom -2, yet nothing is zero: the drill spans the heights -42 to -2,
    misses the solid, and the evaluation is that of the full shape. *)
Theorem capped_cylinder_level_below_drill :
  -42 <= - (4 / 2)
  /\ evaluate_cylinder_with_caps 4 1 (-42) = evaluate_cylinder_with_caps 4 1 2
  /\ volume_of (evaluate_cylinder_with_caps 4 1 (-42)) = 10 / 3 * PI
  /\ volume_of (evaluate_cylinder_with_caps 4 1 (-42)) <> 0.
Proof.
  assert (Hv : valid (CylinderWithCaps 4 1)) by (simpl; lra).
  assert (Hout : evaluate (CylinderWithCaps 4 1) (-42)
                 = (Volume (full_solid (CylinderWithCaps 4 1)), 0,
                    inertia_xx_about 0 (full_solid (CylinderWithCaps 4 1))))
    by (apply evaluate_out_of_reach; simpl; lra).
  assert (Hfull : evaluate (CylinderWithCaps 4 1) 2
                 = (Volume (full_solid (CylinderWithCaps 4 1)), 0,
                    inertia_xx_about 0 (full_solid (CylinderWithCaps 4 1))))
    by (apply evaluate_full; simpl; lra).
  assert (HV : volume_of (evaluate_cylinder_with_caps 4 1 (-42)) = 10 / 3 * PI).
  { change (volume_of (evaluate (CylinderWithCaps 4 1) (-42)) = 10 / 3 * PI).
    rewrite Hout; unfold volume_of; cbn [fst].
    rewrite full_solid_Volume by exact Hv; field. }
  split; [lra|]; split; [|split].
  - change (evaluate (CylinderWithCaps 4 1) (-42)
            = evaluate (CylinderWithCaps 4 1) 2).
    rewrite Hout, Hfull; reflexivity.
  - exact HV.
  - rewrite HV; pose proof PI_RGT_0; lra.
Qed.

(** C5.  For a sphere of radius R and a level h in [-R, R], the volumes
    below h and below -h add up to the volume of the sphere. *)
Theorem sphere_volume_symmetry R h :
  0 < R -> - R <= h <= R ->
  volume_of (evaluate_sphere_parameters R h)
  + volume_of (evaluate_sphere_parameters R (- h))
  = 4 / 3 * PI * R ^ 3.
Proof.
  intros HR Hh.
  change (Volume (cut (sphere R) (drill (10 * R) R h))
          + Volume (cut (sphere R) (drill (10 * R) R (- h)))
          = 4 / 3 * PI * R ^ 3).
  rewrite !sphere_Volume by lra; field.
Qed.

Lemma sphere_volume_symmetry_witness :
  volume_of (evaluate_sphere_parameters 2 1)
  + volume_of (evaluate_sphere_parameters 2 (- 1))
  = 4 / 3 * PI * 2 ^ 3.
Proof. apply (sphere_volume_symmetry 2 1); lra. Defined.

(** C6, at a level the claim covers and the code gets wrong.  For the sphere
    of radius 1 the level -12 is not treated as the bottom -1 it clamps to:
    the drill spans the heights -12 to -2 and misses the sphere, so the
    evaluation is that of the full sphere, where the clamped level gives
    the empty result. *)
Theorem sphere_level_below_drill :
  evaluate_sphere_parameters 1 (-12) = evaluate_sphere_parameters 1 1
  /\ volume_of (evaluate_sphere_parameters 1 (-12)) = 4 / 3 * PI
  /\ evaluate_sphere_parameters 1 (clamp (-12) (-1) 1) = (0, 0, 0).
Proof.
  assert (Hv : valid (Sphere 1)) by (simpl; lra).
  assert (Hout : evaluate (Sphere 1) (-12)
                 = (Volume (full_solid (Sphere 1)), 0,
                    inertia_xx_about 0 (full_solid (Sphere 1))))
    by (apply evaluate_out_of_reach; simpl; lra).
  assert (Hfull : evaluate (Sphere 1) 1
                 = (Volume (full_solid (Sphere 1)), 0,
                    inertia_xx_about 0 (full_solid (Sphere 1))))
    by (apply evaluate_full; simpl; lra).
  split; [|split].
  - change (evaluate (Sphere 1) (-12) = evaluate (Sphere 1) 1).
    rewrite Hout, Hfull; reflexivity.
  - change (volume_of (evaluate (Sphere 1) (-12)) = 4 / 3 * PI).
    rewrite Hout; unfold volume_of; cbn [fst].
    rewrite full_solid_Volume by exact Hv; field.
  - rewrite clamp_below by lra.
    apply (evaluate_empty (Sphere 1) (-1)); simpl; lra.
Qed.

(** C7 as stated fails at the bottom: at the level -R nothing of the sphere
    is left and the kernel reports the origin for a solid without volume, so
    the returned centroid is 0 and not -R (here R = 1). *)
Lemma sphere_bottom_centroid_counterexample :
  center_of_mass_of (evaluate_sphere_parameters 1 (- 1)) = 0
  /\ center_of_mass_of (evaluate_sphere_parameters 1 (- 1)) <> - 1.
Proof.
  assert (H : center_of_mass_of (evaluate_sphere_parameters 1 (- 1)) = 0).
  { change (centerOfMass_z (level_solid (Sphere 1) (- 1)) = 0).
    apply sphere_empty_centerOfMass; lra. }
  split; [exact H | rewrite H; lra].
Qed.

(** C7, amended.  For a sphere of radius R the returned centroid is 0 at
    the level R and -3R/8 at the level 0, where the volume is (2/3) pi R^3;
    at the level -R the filled region is empty, and the volume and the
    centroid returned are both 0. *)
Theorem sphere_centroid_values R :
  0 < R ->
  center_of_mass_of (evaluate_sphere_parameters R R) = 0
  /\ center_of_mass_of (evaluate_sphere_parameters R 0) = - (3 * R / 8)
  /\ volume_of (evaluate_sphere_parameters R 0) = 2 / 3 * PI * R ^ 3
  /\ volume_of (evaluate_sphere_parameters R (- R)) = 0
  /\ center_of_mass_of (evaluate_sphere_parameters R (- R)) = 0.
Proof.
  intros HR.
  assert (Hc : forall h, center_of_mass_of (evaluate_sphere_parameters R h)
                         = centerOfMass_z (level_solid (Sphere R) h))
    by reflexivity.
  assert (Hv : forall h, volume_of (evaluate_sphere_parameters R h)
                         = Volume (level_solid (Sphere R) h)) by reflexivity.
  rewrite !Hc, !Hv.
  split; [rewrite sphere_centerOfMass by lra; field; lra|].
  split; [rewrite sphere_centerOfMass by lra; field; lra|].
  split; [unfold level_solid, full_solid, reach, max_radius;
          rewrite sphere_Volume by lra; field|].
  split; [apply sphere_empty_Volume; lra|].
  apply sphere_empty_centerOfMass; lra.
Qed.

Lemma sphere_centroid_values_witness :
  center_of_mass_of (evaluate_sphere_parameters (5 / 100) 0)
  = - (1875 / 100000)
  /\ volume_of (evaluate_sphere_parameters (5 / 100) 0)
     = 2 / 3 * PI * (5 / 100) ^ 3
  /\ center_of_mass_of (evaluate_sphere_parameters (5 / 100) (- (5 / 100)))
     = 0.
Proof.
  assert (HR : 0 < 5 / 100) by lra.
  destruct (sphere_centroid_values (5 / 100) HR) as (_ & H0 & HV & _ & Hb).
  split; [rewrite H0; field|]; split; [exact HV | exact Hb].
Defined.

(** C8.  A tank shape with a non-positive radius or length, or with caps
    whose diameter exceeds the total length, is refused when it is
    constructed, and no evaluation of it returns values; a shape that is
    constructed has exactly the dimensions it was given. *)
Theorem invalid_dimensions_rejected radius height :
  radius <= 0 \/ height <= 0 \/ height < 2 * radius ->
  (exists e, CylindricalTank radius height = inl e
             /\ forall h, evaluate_tank (CylindricalTank radius height) h = inl e)
  /\ (radius <= 0 ->
      SphericalTank radius = inl NonPositiveDimension
      /\ forall h, evaluate_tank (SphericalTank radius) h
                   = inl NonPositiveDimension)
  /\ (forall r l sh, CylindricalTank r l = inr sh ->
        sh = CylinderWithCaps l r /\ valid sh)
  /\ (forall r sh, SphericalTank r = inr sh -> sh = Sphere r /\ valid sh).
Proof.
  intros Hbad; split; [|split; [|split]].
  - unfold CylindricalTank.
    destruct (Rlt_dec 0 radius) as [Hr|Hr];
      [destruct (Rlt_dec 0 height) as [Hh|Hh];
       [destruct (Rle_dec (2 * radius) height) as [Hc|Hc]|]|].
    + exfalso; lra.
    + exists CapsExceedLength; split; reflexivity.
    + exists NonPositiveDimension; split; reflexivity.
    + exists NonPositiveDimension; split; reflexivity.
  - intros Hr; unfold SphericalTank.
    destruct (Rlt_dec 0 radius) as [Hp|_]; [exfalso; lra|].
    split; reflexivity.
  - intros r l sh; unfold CylindricalTank.
    destruct (Rlt_dec 0 r) as [Hr|Hr]; [|discriminate].
    destruct (Rlt_dec 0 l) as [Hl|Hl]; [|discriminate].
    destruct (Rle_dec (2 * r) l) as [Hc|Hc]; [|discriminate].
    intros E; injection E as <-; split; [reflexivity | simpl; lra].
  - intros r sh; unfold SphericalTank.
    destruct (Rlt_dec 0 r) as [Hr|Hr]; [|discriminate].
    intros E; injection E as <-; split; [reflexivity | exact Hr].
Qed.

Lemma invalid_dimensions_rejected_witness :
  exists e, CylindricalTank 1 1 = inl e
            /\ forall h, evaluate_tank (CylindricalTank 1 1) h = inl e.
Proof.
  apply (invalid_dimensions_rejected 1 1); right; right; lra.
Defined.

(** C9.  Each file has the header row level_height, volume,
    center_of_mass, inertia and then one row per sampled level, holding the
    level and the three values of its evaluation in that order; the levels
    are the 25 equally spaced heights from the bottom - total_height / 2 to
    the top total_height / 2, both included. *)
Theorem tabulation_records items :
  export_spheres items
  = map (fun '(name, g) =>
           ((name ++ "_expected.csv")%string,
            header :: map (fun h => record_of h (evaluate_sphere_parameters
                                                   (total_height g / 2) h))
                          (levels g))) items
  /\ export_cylinders items
  = map (fun '(name, g) =>
           ((name ++ "_expected.csv")%string,
            header :: map (fun h => record_of h (evaluate_cylinder_with_caps
                                                   (total_height g) (radius g 0) h))
                          (levels g))) items
  /\ (forall g,
     levels g
     = map (fun i => - (total_height g / 2) + INR i * (total_height g / 24))
           (seq 0 25)
     /\ List.length (levels g) = 25%nat
     /\ nth 0 (levels g) 0 = - (total_height g / 2)
     /\ nth 24 (levels g) 0 = total_height g / 2).
Proof.
  split; [|split].
  - apply map_ext; intros [name g].
    unfold export_expected_parameters; rewrite sphere_rows; reflexivity.
  - apply map_ext; intros [name g].
    unfold export_expected_parameters; rewrite cylinder_rows; reflexivity.
  - intros g; split; [apply levels_map | apply levels_spec].
Qed.

(** C10.  For every valid shape and every level the returned inertia is the
    sum of two non-negative terms, the moment of inertia about the centroid
    and the volume times the square of the centroid, and so is
    non-negative. *)
Theorem inertia_nonneg sh h :
  valid sh ->
  let r := evaluate sh h in
  inertia_of r
  = matrixOfInertia_xx (level_solid sh h)
    + volume_of r * center_of_mass_of r ^ 2
  /\ 0 <= matrixOfInertia_xx (level_solid sh h)
  /\ 0 <= volume_of r * center_of_mass_of r ^ 2
  /\ 0 <= inertia_of r.
Proof.
  intros Hv r; subst r; rewrite evaluate_eq.
  unfold inertia_of, volume_of, center_of_mass_of; cbn [fst snd].
  pose proof (fits_level_solid sh h Hv) as Hf.
  assert (H1 : 0 <= matrixOfInertia_xx (level_solid sh h))
    by (eapply inertia_xx_about_nonneg, Hf).
  assert (H2 : 0 <= Volume (level_solid sh h)) by (eapply Volume_nonneg, Hf).
  assert (H3 : 0 <= centerOfMass_z (level_solid sh h) ^ 2)
    by (apply pow2_ge_0).
  assert (H4 : 0 <= Volume (level_solid sh h)
                    * centerOfMass_z (level_solid sh h) ^ 2)
    by (apply Rmult_le_pos; assumption).
  repeat split; try assumption; lra.
Qed.

Lemma inertia_nonneg_witness :
  valid (Sphere 1) /\ 0 <= inertia_of (evaluate (Sphere 1) 0).
Proof.
  assert (Hv : valid (Sphere 1)) by (simpl; lra).
  split; [exact Hv|].
  exact (proj2 (proj2 (proj2 (inertia_nonneg (Sphere 1) 0 Hv)))).
Defined.

(** * Further properties of the notebook *)

Import Poly PolyFacts Cq Np Notebook Geom CqFacts ShapeFacts LevelFacts.


(** X2.  As long as the drill reaches the top of the shape, a level outside
    the valid range gives exactly what the nearest end of the range
    gives. *)
Theorem level_in_reach_is_clamped sh h :
  valid sh -> half_height sh <= h + reach sh ->
  evaluate sh h = evaluate sh (clamp h (- half_height sh) (half_height sh)).
Proof. intros Hv Hr; apply evaluate_clamp; assumption. Qed.

Lemma level_in_reach_is_clamped_witness :
  evaluate (CylinderWithCaps 4 1) 7
  = evaluate (CylinderWithCaps 4 1) (clamp 7 (- (4 / 2)) (4 / 2)).
Proof.
  apply (level_in_reach_is_clamped (CylinderWithCaps 4 1) 7); simpl; lra.
Defined.

(** X3.  For a level at or below the bottom, the volume returned is that of
    what lies above the top of the drill: with the volume below the level
    h + drill_height (brought back into the valid range) it makes up the
    volume of the full shape. *)
Theorem volume_below_bottom sh h :
  valid sh -> h <= - half_height sh ->
  volume_of (evaluate sh h)
  + volume_of (evaluate sh (clamp (h + reach sh) (- half_height sh)
                                  (half_height sh)))
  = volume_of (evaluate sh (half_height sh)).
Proof.
  intros Hv Hh.
  rewrite (evaluate_full sh (half_height sh) Hv (Rle_refl _)).
  rewrite !evaluate_eq; unfold volume_of; cbn [fst].
  apply level_Volume_below_bottom; assumption.
Qed.

Lemma volume_below_bottom_witness :
  volume_of (evaluate (Sphere 1) (- 10))
  + volume_of (evaluate (Sphere 1) (clamp (- 10 + 10 * 1) (- 1) 1))
  = volume_of (evaluate (Sphere 1) 1).
Proof. apply (volume_below_bottom (Sphere 1) (- 10)); simpl; lra. Defined.

(** X4.  Whatever the level, the volume returned is neither negative nor
    larger than the volume of the full shape. *)
Theorem volume_bounds sh h :
  valid sh ->
  0 <= volume_of (evaluate sh h) <= volume_of (evaluate sh (half_height sh)).
Proof.
  intros Hv.
  rewrite (evaluate_full sh (half_height sh) Hv (Rle_refl _)).
  rewrite evaluate_eq; unfold volume_of; cbn [fst]; split.
  - eapply Volume_nonneg, fits_level_solid, Hv.
  - apply level_Volume_le_full, Hv.
Qed.

Lemma volume_bounds_witness :
  0 <= volume_of (evaluate (Sphere 1) (- 10))
  <= volume_of (evaluate (Sphere 1) 1).
Proof. apply (volume_bounds (Sphere 1) (- 10)); simpl; lra. Defined.

(** X6.  For a sphere of radius R filled up to a level h in [-R, R] the
    inertia returned is
    pi (R^4 (h + R) / 4 + R^2 (h^3 + R^3) / 6 - 3 (h^5 + R^5) / 20);
    for the full sphere it is 2/5 of the volume times R^2. *)
Theorem sphere_inertia_formula R h :
  0 < R -> - R <= h <= R ->
  inertia_of (evaluate_sphere_parameters R h)
  = PI * (R ^ 4 * (h + R) / 4 + R ^ 2 * (h ^ 3 + R ^ 3) / 6
          - 3 * (h ^ 5 + R ^ 5) / 20)
  /\ inertia_of (evaluate_sphere_parameters R R)
     = 2 / 5 * volume_of (evaluate_sphere_parameters R R) * R ^ 2.
Proof.
  intros HR Hh.
  assert (HI : forall x, - R <= x <= R ->
            inertia_of (evaluate_sphere_parameters R x)
            = PI * (R ^ 4 * (x + R) / 4 + R ^ 2 * (x ^ 3 + R ^ 3) / 6
                    - 3 * (x ^ 5 + R ^ 5) / 20)).
  { intros x Hx.
    rewrite <- (sphere_inertia R x) by lra.
    apply (returned_inertia_about_origin (Sphere R) x). }
  split; [apply HI; exact Hh|].
  rewrite HI by lra.
  change (volume_of (evaluate_sphere_parameters R R))
    with (Volume (cut (sphere R) (drill (10 * R) R R))).
  rewrite sphere_Volume by lra; field.
Qed.

Lemma sphere_inertia_formula_witness :
  inertia_of (evaluate_sphere_parameters 1 0)
  = PI * (1 ^ 4 * (0 + 1) / 4 + 1 ^ 2 * (0 ^ 3 + 1 ^ 3) / 6
          - 3 * (0 ^ 5 + 1 ^ 5) / 20).
Proof. apply (sphere_inertia_formula 1 0); lra. Defined.

(** X7.  At or above its top a capped cylinder of total length L and radius
    r evaluates to the volume of the cylinder plus one sphere (the parts
    that overlap are not counted twice), the centroid 0 and, with
    c = L/2 - r, the inertia
    pi (3/2 c r^4 + 2/3 r^2 c^3 + 8/15 r^5 + 4/3 c^2 r^3). *)
Theorem capped_cylinder_full L r h :
  0 < r -> 2 * r <= L -> L / 2 <= h ->
  evaluate_cylinder_with_caps L r h
  = (PI * r ^ 2 * (L - 2 * r) + 4 / 3 * PI * r ^ 3,
     0,
     let c := L / 2 - r in
     PI * (3 / 2 * c * r ^ 4 + 2 / 3 * r ^ 2 * c ^ 3 + 8 / 15 * r ^ 5
           + 4 / 3 * c ^ 2 * r ^ 3)).
Proof.
  intros Hr HL Hh.
  assert (Hv : valid (CylinderWithCaps L r)) by (simpl; lra).
  assert (Hh' : half_height (CylinderWithCaps L r) <= h) by (simpl; lra).
  pose proof (evaluate_full (CylinderWithCaps L r) h Hv Hh') as E.
  cbn [evaluate full_solid] in E; rewrite E.
  rewrite capped_cylinder_Volume, capped_cylinder_inertia by lra.
  reflexivity.
Qed.

Lemma capped_cylinder_full_witness :
  volume_of (evaluate_cylinder_with_caps 4 1 3)
  = PI * 1 ^ 2 * (4 - 2 * 1) + 4 / 3 * PI * 1 ^ 3.
Proof.
  rewrite (capped_cylinder_full 4 1 3) by lra; reflexivity.
Defined.

(** X8.  For a valid capped cylinder and a level of the valid range the
    volume returned is the piecewise closed form [capsule_volume]: a cap
    of the bottom sphere up to the straight section, the bottom hemisphere
    plus a piece of cylinder along it, and the full volume less a cap of
    the top sphere above it. *)
Theorem capped_cylinder_volume_formula L r h :
  0 < r -> 2 * r <= L -> - (L / 2) <= h <= L / 2 ->
  volume_of (evaluate_cylinder_with_caps L r h) = capsule_volume L r h.
Proof.
  intros Hr HL Hh.
  change (volume_of (evaluate (CylinderWithCaps L r) h) = capsule_volume L r h).
  rewrite evaluate_eq; unfold volume_of; cbn [fst].
  apply capped_cylinder_level_Volume; assumption.
Qed.

Lemma capped_cylinder_volume_formula_witness :
  volume_of (evaluate_cylinder_with_caps 4 1 0) = capsule_volume 4 1 0.
Proof. apply (capped_cylinder_volume_formula 4 1 0); lra. Defined.

(** X9.  For a valid capped cylinder and a level h of the valid range the
    volumes below h and below -h add up to the volume of the full
    shape. *)
Theorem capped_cylinder_volume_symmetry L r h :
  0 < r -> 2 * r <= L -> - (L / 2) <= h <= L / 2 ->
  volume_of (evaluate_cylinder_with_caps L r h)
  + volume_of (evaluate_cylinder_with_caps L r (- h))
  = PI * r ^ 2 * (L - 2 * r) + 4 / 3 * PI * r ^ 3.
Proof.
  intros Hr HL Hh.
  rewrite <- (capsule_volume_symmetry L r h HL).
  rewrite <- !capped_cylinder_level_Volume by lra.
  reflexivity.
Qed.

Lemma capped_cylinder_volume_symmetry_witness :
  volume_of (evaluate_cylinder_with_caps 4 1 (3 / 2))
  + volume_of (evaluate_cylinder_with_caps 4 1 (- (3 / 2)))
  = PI * 1 ^ 2 * (4 - 2 * 1) + 4 / 3 * PI * 1 ^ 3.
Proof. apply (capped_cylinder_volume_symmetry 4 1 (3 / 2)); lra. Defined.

(** X11.  For every valid shape and every level of the valid range, the
    centroid returned lies between the bottom of the shape and its centre:
    it is never positive and never below the bottom. *)
Theorem centroid_between_bottom_and_centre sh h :
  valid sh -> - half_height sh <= h -> h <= half_height sh ->
  - half_height sh <= center_of_mass_of (evaluate sh h) <= 0.
Proof.
  intros Hv H1 H2; rewrite evaluate_eq; unfold center_of_mass_of; cbn [fst snd].
  apply level_centerOfMass_range; assumption.
Qed.

Lemma centroid_between_bottom_and_centre_witness :
  - (4 / 2) <= center_of_mass_of (evaluate (CylinderWithCaps 4 1) 1) <= 0.
Proof.
  apply (centroid_between_bottom_and_centre (CylinderWithCaps 4 1) 1);
    simpl; lra.
Defined.

(** X12.  Within the reach of the drill a level at or below the bottom
    gives volume, centroid and inertia 0. *)
Theorem level_below_bottom_in_reach sh h :
  valid sh -> h <= - half_height sh -> half_height sh <= h + reach sh ->
  evaluate sh h = (0, 0, 0).
Proof. intros Hv Hh Hr; apply evaluate_empty; assumption. Qed.

Lemma level_below_bottom_in_reach_witness :
  evaluate (CylinderWithCaps 4 1) (- 5) = (0, 0, 0).
Proof.
  apply (level_below_bottom_in_reach (CylinderWithCaps 4 1) (- 5)); simpl; lra.
Defined.

(** X13.  For a spherical tank of positive height the datapoints of its
    table start with the empty tank, [-R, 0, 0, 0], and end with the full
    sphere, [R, 4/3 pi R^3, 0, 8/15 pi R^5], where R = total_height / 2. *)
Theorem sphere_table_ends g :
  0 < total_height g ->
  let R := total_height g / 2 in
  nth 0 (sphere_datapoints g) [] = [- R; 0; 0; 0]
  /\ nth 24 (sphere_datapoints g) []
     = [R; 4 / 3 * PI * R ^ 3; 0; 8 / 15 * PI * R ^ 5].
Proof.
  intros HH R.
  assert (HR : 0 < R) by (unfold R; lra).
  assert (Hv : valid (Sphere R)) by exact HR.
  rewrite !sphere_datapoint by lia; cbv zeta.
  rewrite level_at_0, level_at_24; fold R.
  split.
  - pose proof (evaluate_empty (Sphere R) (- R) Hv) as E.
    simpl in E; rewrite E by lra; reflexivity.
  - pose proof (evaluate_full (Sphere R) R Hv (Rle_refl R)) as E.
    cbn [evaluate full_solid] in E; rewrite E.
    unfold volume_of, center_of_mass_of, inertia_of; cbn [fst snd].
    pose proof (full_solid_Volume (Sphere R) Hv) as EV.
    cbn [full_solid] in EV.
    rewrite EV, sphere_full_inertia; reflexivity.
Qed.

Lemma sphere_table_ends_witness :
  nth 0 (sphere_datapoints (mkTankGeometry (1 / 10) (fun _ => 5 / 100))) []
  = [- (1 / 10 / 2); 0; 0; 0].
Proof.
  apply (sphere_table_ends (mkTankGeometry (1 / 10) (fun _ => 5 / 100)));
    simpl; lra.
Defined.

(** X14.  For a cylindrical tank with caps whose radius r is positive and
    whose height L is at least 2 r, the datapoints of its table start with
    the empty tank, [-L/2, 0, 0, 0], and end with the full tank: the level
    L/2, the volume of the cylinder and one sphere, the centroid 0 and the
    inertia of the full shape about the origin. *)
Theorem cylinder_table_ends g :
  0 < radius g 0 -> 2 * radius g 0 <= total_height g ->
  let L := total_height g in
  let r := radius g 0 in
  let c := L / 2 - r in
  nth 0 (cylinder_datapoints g) [] = [- (L / 2); 0; 0; 0]
  /\ nth 24 (cylinder_datapoints g) []
     = [L / 2;
        PI * r ^ 2 * (L - 2 * r) + 4 / 3 * PI * r ^ 3;
        0;
        PI * (3 / 2 * c * r ^ 4 + 2 / 3 * r ^ 2 * c ^ 3 + 8 / 15 * r ^ 5
              + 4 / 3 * c ^ 2 * r ^ 3)].
Proof.
  intros Hr HL L r c.
  assert (Hv : valid (CylinderWithCaps L r)) by (simpl; unfold L, r; lra).
  rewrite !cylinder_datapoint by lia; cbv zeta.
  rewrite level_at_0, level_at_24; fold L r.
  split.
  - pose proof (evaluate_empty (CylinderWithCaps L r) (- (L / 2)) Hv) as E.
    simpl in E; rewrite E by (unfold L, r; lra); reflexivity.
  - rewrite (capped_cylinder_full L r (L / 2)) by (unfold L, r; lra).
    reflexivity.
Qed.

Lemma cylinder_table_ends_witness :
  nth 0 (cylinder_datapoints (mkTankGeometry 4 (fun _ => 1))) []
  = [- (4 / 2); 0; 0; 0].
Proof.
  apply (cylinder_table_ends (mkTankGeometry 4 (fun _ => 1))); simpl; lra.
Defined.

(** X15.  In both kinds of table the volume column grows strictly from one
    row to the next: for rows i < j the volume of row i is smaller than
    that of row j. *)
Theorem table_volumes_increase g i j :
  (i < j)%nat -> (j <= 24)%nat -> 0 < total_height g ->
  nth 1 (nth i (sphere_datapoints g) []) 0
  < nth 1 (nth j (sphere_datapoints g) []) 0
  /\ (0 < radius g 0 -> 2 * radius g 0 <= total_height g ->
      nth 1 (nth i (cylinder_datapoints g) []) 0
      < nth 1 (nth j (cylinder_datapoints g) []) 0).
Proof.
  intros Hij Hj HH.
  pose proof (level_at_range g i HH ltac:(lia)) as Hi'.
  pose proof (level_at_range g j HH Hj) as Hj'.
  pose proof (level_at_lt g i j HH Hij) as Hlt.
  split.
  - rewrite !sphere_datapoint by lia; cbv zeta; cbn [nth].
    apply (evaluate_volume_lt (Sphere (total_height g / 2)));
      simpl; lra.
  - intros Hr HL.
    rewrite !cylinder_datapoint by lia; cbv zeta; cbn [nth].
    apply (evaluate_volume_lt
             (CylinderWithCaps (total_height g) (radius g 0)));
      simpl; lra.
Qed.

Lemma table_volumes_increase_witness :
  nth 1 (nth 3 (sphere_datapoints (mkTankGeometry 2 (fun _ => 1))) []) 0
  < nth 1 (nth 7 (sphere_datapoints (mkTankGeometry 2 (fun _ => 1))) []) 0.
Proof.
  apply (table_volumes_increase (mkTankGeometry 2 (fun _ => 1)) 3 7);
    [lia | lia | simpl; lra].
Defined.

(** X16.  At or above its top a sphere of radius R evaluates to the full
    ball: volume 4/3 pi R^3, centroid 0 and inertia 8/15 pi R^5. *)
Theorem sphere_full R h :
  0 < R -> R <= h ->
  evaluate_sphere_parameters R h
  = (4 / 3 * PI * R ^ 3, 0, 8 / 15 * PI * R ^ 5).
Proof.
  intros HR Hh.
  assert (Hv : valid (Sphere R)) by exact HR.
  pose proof (evaluate_full (Sphere R) h Hv Hh) as E.
  cbn [evaluate full_solid] in E; rewrite E.
  pose proof (full_solid_Volume (Sphere R) Hv) as EV.
  cbn [full_solid] in EV.
  rewrite EV, sphere_full_inertia; reflexivity.
Qed.

Lemma sphere_full_witness :
  evaluate_sphere_parameters 1 3
  = (4 / 3 * PI * 1 ^ 3, 0, 8 / 15 * PI * 1 ^ 5).
Proof. apply (sphere_full 1 3); lra. Defined.

(** X17.  As long as the drill reaches the top of the shape, the returned
    inertia minus volume times the square of the returned centroid is the
    central moment of inertia of the part of the shape at or below the
    level, taken about the axis through that part's own centroid, and it
    is not negative. *)
Theorem central_moment_in_reach sh h :
  valid sh -> half_height sh <= h + reach sh ->
  let r := evaluate sh h in
  inertia_of r - volume_of r * center_of_mass_of r ^ 2
  = filled_central_moment sh h
  /\ 0 <= filled_central_moment sh h.
Proof.
  intros Hv Hreach r; subst r; rewrite evaluate_eq.
  unfold inertia_of, volume_of, center_of_mass_of; cbn [fst snd].
  rewrite level_filled_central_moment by assumption.
  split; [ring | apply filled_central_moment_nonneg, Hv].
Qed.

Lemma central_moment_in_reach_witness :
  inertia_of (evaluate (CylinderWithCaps 4 1) 1)
  - volume_of (evaluate (CylinderWithCaps 4 1) 1)
    * center_of_mass_of (evaluate (CylinderWithCaps 4 1) 1) ^ 2
  = filled_central_moment (CylinderWithCaps 4 1) 1
  /\ 0 <= filled_central_moment (CylinderWithCaps 4 1) 1.
Proof.
  apply (central_moment_in_reach (CylinderWithCaps 4 1) 1); simpl; lra.
Defined.
